(** * MinimalHtml: bulk dispatch and reply aggregation (server/routes.ts)

    A shallow embedding of the route handlers of [registerRoutes]: the
    credential selection of every endpoint, the recipient resolution and the
    send loop of POST /api/dm/bulk, the member preview of
    POST /api/guild/members, the listener hand-off, and the reply
    ingestion and WebSocket fan-out.  The endpoints that touch none of
    these (/api/health, /api/token, /api/admin/tokens, GET /api/replies)
    are left out.

    Conventions.  A JavaScript value that may be [undefined] or [null] is an
    [option]; an awaited promise is an [Awaited] value (it rejects or it
    resolves); object identity ([new Client(...)], a WebSocket) is an index
    into a heap list of the process state.  The handlers suspend at every
    [await]; the process is a transition system over the synchronous blocks
    that run between suspension points, and a run is any interleaving of
    them.  An awaited database call is two steps (the database commits or
    answers; the awaiting handler resumes).  A request handler whose awaits
    concern only its own client and the platform is one step, placed at the
    instant of its first access to shared state. *)

From stdpp Require Import base option list strings.
From Stdlib Require Import ZArith Lia.

Local Open Scope string_scope.
Local Open Scope list_scope.
Local Open Scope nat_scope.

(** ** JavaScript values used by the handlers *)

(** The outcome of [await p]: the promise rejects (the enclosing [try]
    transfers to its [catch]) or resolves with a value. *)
Inductive Awaited (A : Type) : Type :=
| Rejects : Awaited A
| Resolves : A → Awaited A.
Arguments Rejects {A}.
Arguments Resolves {A} _.

(** [!!s] for an optional string: [undefined], [null] and the empty string
    are falsy. *)
Definition truthy (t : option string) : bool :=
  match t with
  | Some s => negb (bool_decide (s = EmptyString))
  | None => false
  end.

(** [arr.includes(x)] on an array of strings. *)
Definition includes (arr : list string) (x : string) : bool :=
  bool_decide (x ∈ arr).

(** ** Credential selection *)

Module Token.

(** The endpoints that read a bot token. *)
Inductive Endpoint :=
| DmSingle | GuildMembers | Guilds | DmBulk | StartReplyListener.

(** [a || b] *)
Definition or_else (a b : option string) : option string :=
  if truthy a then a else b.

(** The [token] constant of each handler: four handlers evaluate
    [process.env.DISCORD_BOT_TOKEN || requestToken]; /api/startReplyListener
    destructures [token] from the request body and never reads the
    environment. *)
Definition selectToken (e : Endpoint) (envToken requestToken : option string)
  : option string :=
  match e with
  | StartReplyListener => requestToken
  | _ => or_else envToken requestToken
  end.

(** [if (!token) return res.status(400)...]: [None] is the 400 response,
    [Some t] the token handed to [client.login]. *)
Definition loginToken (e : Endpoint) (envToken requestToken : option string)
  : option string :=
  let token := selectToken e envToken requestToken in
  if truthy token then token else None.

End Token.

(** ** Guilds as one session sees them *)

Record GuildMember := {
  member_id : string;
  member_username : string;
  member_displayName : string;
  member_avatar : string;
  member_bot : bool            (* member.user.bot *)
}.

(** [members_fetch] is the outcome of [await guild.members.fetch()]: it
    rejects, or it resolves and [guild.members.cache] then holds the listed
    members, in the order [forEach] and [map] visit them. *)
Record Guild := {
  guild_id : string;
  guild_name : string;
  members_fetch : Awaited (list GuildMember)
}.

(** ** Recipient resolution of POST /api/dm/bulk (lines 354-381) *)

Module Resolver.

(** The callback of [guild.members.cache.forEach]. *)
Definition addMember (targetUserIds : list string) (member : GuildMember)
  : list string :=
  if negb (member_bot member) && negb (includes targetUserIds (member_id member))
  then targetUserIds ++ [member_id member]
  else targetUserIds.

(** One iteration of [for (const guild of guildArray)], with its
    [try]/[catch]. *)
Definition addGuild (targetUserIds : list string) (guild : Guild) : list string :=
  match members_fetch guild with
  | Resolves cache => foldl addMember targetUserIds cache
  | Rejects => targetUserIds
  end.

(** [let targetUserIds = [...userIds]; if (selectAll) { ... }].  An absent
    [selectAll] is [false]. *)
Definition resolveTargets (userIds : list string) (selectAll : bool)
    (guildArray : list Guild) : list string :=
  let targetUserIds := userIds in
  if selectAll then foldl addGuild targetUserIds guildArray else targetUserIds.

End Resolver.

(** ** All-guilds member preview of POST /api/guild/members (lines 190-221) *)

Module Preview.

(** The object literal built by [guild.members.cache.map]: it has no
    [bot] property. *)
Record MemberView := {
  id : string;
  username : string;
  displayName : string;
  avatarUrl : string;
  guildId : string;
  guildName : string
}.

Definition viewOf (guild : Guild) (member : GuildMember) : MemberView :=
  {| id := member_id member;
     username := member_username member;
     displayName := member_displayName member;
     avatarUrl := member_avatar member;
     guildId := guild_id guild;
     guildName := guild_name guild |}.

(** [member.bot] read on a [MemberView]: the property does not exist. *)
Definition view_bot (m : MemberView) : option bool := None.

(** [!v] for an optional boolean. *)
Definition js_not (v : option bool) : bool :=
  match v with Some true => false | _ => true end.

(** [self.findIndex(p)], -1 when no element satisfies [p]. *)
Fixpoint findIndexFrom {A} (p : A → bool) (self : list A) (i : Z) : Z :=
  match self with
  | [] => (-1)%Z
  | x :: rest => if p x then i else findIndexFrom p rest (i + 1)%Z
  end.
Definition findIndex {A} (p : A → bool) (self : list A) : Z :=
  findIndexFrom p self 0%Z.

(** [self.filter((member, index, self) => p(member, index, self))] *)
Fixpoint filterFrom {A} (p : A → Z → bool) (l : list A) (index : Z) : list A :=
  match l with
  | [] => []
  | x :: rest =>
      if p x index then x :: filterFrom p rest (index + 1)%Z
      else filterFrom p rest (index + 1)%Z
  end.

(** "Remove duplicate members (same user in multiple servers)". *)
Definition removeDuplicates (members : list MemberView) : list MemberView :=
  filterFrom
    (fun member index =>
       bool_decide (index = findIndex (fun m => bool_decide (id m = id member)) members))
    members 0%Z.

(** One iteration of the all-guilds loop, with its [try]/[catch]. *)
Definition addGuild (members : list MemberView) (guild : Guild) : list MemberView :=
  match members_fetch guild with
  | Resolves cache => members ++ map (viewOf guild) cache
  | Rejects => members
  end.

(** The [else] branch (no [guildId]) followed by the bot filter. *)
Definition allGuildMembers (guildArray : list Guild) : list MemberView :=
  let members := foldl addGuild [] guildArray in
  let members := removeDuplicates members in
  filter (fun member => js_not (view_bot member) = true) members.

End Preview.

(** ** The platform as one session sees it *)

(** A resolved platform user; only [user.bot] is read. *)
Record User := { user_bot : bool }.

(** What the platform answers to one [Client].  The calls of the send loop
    thread a [World], so that the answer to a call may depend on every
    earlier call (the same id can succeed once and fail later). *)
Record Discord := {
  World : Type;
  world0 : World;
  login : string → bool;                       (* await client.login(token) resolves *)
  guilds_cache : list Guild;                   (* Array.from(client.guilds.cache.values()) *)
  guilds_fetch : string → Awaited (option Guild);
  users_fetch : string → World → Awaited (option User) * World;
  createDM : string → World → bool * World;    (* await user.createDM() resolves *)
  send : string → string → World → bool * World (* await dmChannel.send(message) resolves *)
}.

(** ** The send loop of POST /api/dm/bulk (lines 383-411) *)

Module Dispatch.

(** [const results = { success: 0, failed: 0, failedIds: [] }] *)
Record Results := {
  success : nat;
  failed : nat;
  failedIds : list string
}.

(** A journal of what the loop did, in order (it is not in the source; the
    claims about waits are read off it): each iteration starts with the
    call of [client.users.fetch(userId)] and its outcome, a delivered
    message and an awaited [setTimeout] follow. *)
Inductive Action :=
| AFetch (userId : string) (outcome : Awaited (option User))
| ASent (userId : string)
| ASleep (ms : Z).

Record Loop (W : Type) := {
  results : Results;
  journal : list Action;
  world : W
}.
Arguments results {W} _.
Arguments journal {W} _.
Arguments world {W} _.

(** [results.failed++; results.failedIds.push(userId)] *)
Definition recordFailure (userId : string) (r : Results) : Results :=
  {| success := success r; failed := S (failed r); failedIds := failedIds r ++ [userId] |}.

(** [results.success++] *)
Definition recordSuccess (r : Results) : Results :=
  {| success := S (success r); failed := failed r; failedIds := failedIds r |}.

(** [delay && delay > 0 && userId !== targetUserIds[targetUserIds.length - 1]]:
    the milliseconds to wait, if any. *)
Definition delayFor (delay : option Z) (userId : string) (targetUserIds : list string)
  : option Z :=
  match delay with
  | Some ms =>
      if (0 <? ms)%Z && negb (bool_decide (Some userId = last targetUserIds))
      then Some ms else None
  | None => None
  end.

(** The body of [for (const userId of targetUserIds)]. *)
Definition sendOne (d : Discord) (targetUserIds : list string) (message : string)
    (delay : option Z) (s : Loop (World d)) (userId : string) : Loop (World d) :=
  let '(outcome, w1) := users_fetch d userId (world s) in
  let j1 := journal s ++ [AFetch userId outcome] in
  let failure w :=
    {| results := recordFailure userId (results s); journal := j1; world := w |} in
  match outcome with
  | Rejects => failure w1
  | Resolves None => failure w1
  | Resolves (Some user) =>
      if user_bot user then {| results := results s; journal := j1; world := w1 |}
      else
        let '(opened, w2) := createDM d userId w1 in
        if opened then
          let '(delivered, w3) := send d userId message w2 in
          if delivered then
            {| results := recordSuccess (results s);
               journal := j1 ++ [ASent userId] ++
                          match delayFor delay userId targetUserIds with
                          | Some ms => [ASleep ms]
                          | None => []
                          end;
               world := w3 |}
          else failure w3
        else failure w2
  end.

Definition start (d : Discord) : Loop (World d) :=
  {| results := {| success := 0; failed := 0; failedIds := [] |};
     journal := [];
     world := world0 d |}.

Definition sendLoop (d : Discord) (targetUserIds : list string) (message : string)
    (delay : option Z) : Loop (World d) :=
  foldl (sendOne d targetUserIds message delay) (start d) targetUserIds.

(** Reading a journal: the waits of the loop, each with the 1-based
    position of the target it follows and its duration; the positions of
    the targets that were sent the message; [n] counts the fetches so far. *)
Fixpoint waitsFrom (n : nat) (j : list Action) : list (nat * Z) :=
  match j with
  | [] => []
  | AFetch _ _ :: j' => waitsFrom (S n) j'
  | ASent _ :: j' => waitsFrom n j'
  | ASleep ms :: j' => (n, ms) :: waitsFrom n j'
  end.
Definition waitsAfter (j : list Action) : list (nat * Z) := waitsFrom 0 j.

Fixpoint sentFrom (n : nat) (j : list Action) : list nat :=
  match j with
  | [] => []
  | AFetch _ _ :: j' => sentFrom (S n) j'
  | ASent _ :: j' => n :: sentFrom n j'
  | ASleep _ :: j' => sentFrom n j'
  end.
Definition sentAt (j : list Action) : list nat := sentFrom 0 j.

Definition isFetch (a : Action) : bool :=
  match a with AFetch _ _ => true | _ => false end.
Definition isBotFetch (a : Action) : bool :=
  match a with AFetch _ (Resolves (Some u)) => user_bot u | _ => false end.

(** The targets the loop attempted, and those among them that resolved to
    a bot. *)
Definition attempted (j : list Action) : nat := length (filter (fun a => isFetch a = true) j).
Definition botSkips (j : list Action) : nat := length (filter (fun a => isBotFetch a = true) j).

End Dispatch.

(** ** The server process: listener slot, subscribers and reply store *)

Module Server.

(** A row of the [messageReplies] table, as the handlers fill it. *)
Record Reply := {
  userId : string;
  username : string;
  content : string;
  messageId : string;
  timestamp : nat;
  avatarUrl : option string;
  guildId : option string;
  guildName : option string
}.

(** Modelled from the spec: [storage.saveMessageReply] (server/storage.ts)
    and the [messageReplies] table behind [db] (server/db.ts,
    shared/schema.ts) are not among the sources.  The Reply Store is
    "durable append-only persistence for inbound replies" that "exposes
    insert and ordered-read operations": an insert either fails and leaves
    the table as it is, or appends the row and returns the stored record. *)
Definition insertReply (accepted : bool) (values : Reply) (table : list Reply)
  : Awaited Reply * list Reply :=
  if accepted then (Resolves values, table ++ [values]) else (Rejects, table).

(** Modelled from the spec: the ordered read behind
    [db.select().from(messageReplies).orderBy(messageReplies.timestamp)]
    returns every row, "ordered by timestamp ascending". *)
Fixpoint insertByTimestamp (r : Reply) (sorted : list Reply) : list Reply :=
  match sorted with
  | [] => [r]
  | x :: rest =>
      if (timestamp r <? timestamp x)%nat then r :: x :: rest
      else x :: insertByTimestamp r rest
  end.
Definition orderByTimestamp (table : list Reply) : list Reply :=
  foldl (fun sorted r => insertByTimestamp r sorted) [] table.

(** The JSON events written to a subscriber. *)
Inductive Frame :=
| InitialReplies (data : list Reply)       (* {type: 'initialReplies', data} *)
| NewReply (data : Reply).                 (* {type: 'newReply', data} *)

(** A discord.js [Client] object: [destroy()] has been called, the token
    it logged in with, and the number of [Events.MessageCreate] listeners
    registered with [on]. *)
Record Client := {
  destroyed : bool;
  client_token : option string;
  observers : nat
}.

Inductive ReadyState := CONNECTING | OPEN | CLOSING | CLOSED.

(** The history query issued by the connection handler: under way,
    answered by the database (rows or an error) with the [then]/[catch]
    callback still to run, or dealt with. *)
Inductive Query :=
| QIssued
| QAnswered (rows : Awaited (list Reply))
| QSettled.

(** A WebSocket: its state and every frame written to it, in order. *)
Record Socket := {
  readyState : ReadyState;
  received : list Frame;
  history : Query
}.

(** The process state.  [heap] holds every [Client] ever constructed and
    [sockets] every WebSocket ever accepted; their indices are the object
    identities.  [resuming] holds the rows of the inserts that the database
    has committed and whose awaiting handler has not been resumed yet. *)
Record State := {
  env_DISCORD_BOT_TOKEN : option string;   (* process.env.DISCORD_BOT_TOKEN *)
  discordClient : option nat;              (* let discordClient: Client | null *)
  heap : list Client;
  clients : list nat;                      (* const clients = new Set<WebSocket>() *)
  sockets : list Socket;
  messageReplies : list Reply;
  resuming : list Reply
}.

Definition init (envToken : option string) : State :=
  {| env_DISCORD_BOT_TOKEN := envToken; discordClient := None; heap := [];
     clients := []; sockets := []; messageReplies := []; resuming := [] |}.

Definition with_discordClient (v : option nat) (st : State) : State :=
  {| env_DISCORD_BOT_TOKEN := env_DISCORD_BOT_TOKEN st; discordClient := v;
     heap := heap st; clients := clients st; sockets := sockets st;
     messageReplies := messageReplies st; resuming := resuming st |}.
Definition with_heap (v : list Client) (st : State) : State :=
  {| env_DISCORD_BOT_TOKEN := env_DISCORD_BOT_TOKEN st; discordClient := discordClient st;
     heap := v; clients := clients st; sockets := sockets st;
     messageReplies := messageReplies st; resuming := resuming st |}.
Definition with_clients (v : list nat) (st : State) : State :=
  {| env_DISCORD_BOT_TOKEN := env_DISCORD_BOT_TOKEN st; discordClient := discordClient st;
     heap := heap st; clients := v; sockets := sockets st;
     messageReplies := messageReplies st; resuming := resuming st |}.
Definition with_sockets (v : list Socket) (st : State) : State :=
  {| env_DISCORD_BOT_TOKEN := env_DISCORD_BOT_TOKEN st; discordClient := discordClient st;
     heap := heap st; clients := clients st; sockets := v;
     messageReplies := messageReplies st; resuming := resuming st |}.
Definition with_messageReplies (v : list Reply) (st : State) : State :=
  {| env_DISCORD_BOT_TOKEN := env_DISCORD_BOT_TOKEN st; discordClient := discordClient st;
     heap := heap st; clients := clients st; sockets := sockets st;
     messageReplies := v; resuming := resuming st |}.
Definition with_resuming (v : list Reply) (st : State) : State :=
  {| env_DISCORD_BOT_TOKEN := env_DISCORD_BOT_TOKEN st; discordClient := discordClient st;
     heap := heap st; clients := clients st; sockets := sockets st;
     messageReplies := messageReplies st; resuming := v |}.

(** *** Client objects *)

(** [new Client({ intents })] *)
Definition blank : Client :=
  {| destroyed := false; client_token := None; observers := 0 |}.

Definition newClient (st : State) : nat * State :=
  (length (heap st), with_heap (heap st ++ [blank]) st).

(** [client.destroy()] *)
Definition destroyClient (client : nat) (st : State) : State :=
  with_heap
    (alter (fun c => {| destroyed := true; client_token := None; observers := observers c |})
       client (heap st)) st.

(** [await client.login(token)] resolved. *)
Definition loggedIn (client : nat) (token : string) (st : State) : State :=
  with_heap
    (alter (fun c => {| destroyed := destroyed c; client_token := Some token;
                        observers := observers c |})
       client (heap st)) st.

(** [await client.login(token)] rejected.  discord.js's [login] catches the
    failure of the gateway connection, calls [this.destroy()] on the client
    and throws the error again, so the client is destroyed by the time the
    handler's own [catch] runs.  Where that [catch] calls
    [client.destroy()] itself (the four handlers above and below that
    construct a client of their own) the second call changes nothing, and
    they are written with the one [destroyClient]. *)
Definition loginRejected (client : nat) (st : State) : State :=
  destroyClient client st.

(** [client.on(Events.MessageCreate, async (message) => ...)] *)
Definition onMessageCreateRegistered (client : nat) (st : State) : State :=
  with_heap
    (alter (fun c => {| destroyed := destroyed c; client_token := client_token c;
                        observers := S (observers c) |})
       client (heap st)) st.

(** *** Responses *)

Inductive Payload :=
| Failure                                   (* { message } or { success: false, message } *)
| Done                                      (* { success: true, message } *)
| Members (members : list Preview.MemberView)
| GuildList (guilds : list Guild)
| Tally (sentCount failedCount : nat) (failedIds : list string).

Record Response := { status : nat; payload : Payload }.

Definition respond (code : nat) (p : Payload) : Response :=
  {| status := code; payload := p |}.

(** *** POST /api/dm/single, /api/guild/members, /api/guilds
    Each of them constructs a client of its own and destroys it on every
    path; none reads or writes [discordClient]. *)

Record SingleBody := {
  single_requestToken : option string;
  single_userId : string;
  single_message : string
}.

Definition dmSingle (validation : option SingleBody) (d : Discord) (st : State)
  : Response * State :=
  match validation with
  | None => (respond 400 Failure, st)
  | Some data =>
      match Token.loginToken Token.DmSingle (env_DISCORD_BOT_TOKEN st)
              (single_requestToken data) with
      | None => (respond 400 Failure, st)
      | Some token =>
          let '(client, st1) := newClient st in
          if login d token then
            let st2 := loggedIn client token st1 in
            match users_fetch d (single_userId data) (world0 d) with
            | (Resolves (Some user), w1) =>
                let '(opened, w2) := createDM d (single_userId data) w1 in
                if opened && fst (send d (single_userId data) (single_message data) w2)
                then (respond 200 Done, destroyClient client st2)
                else (respond 400 Failure, destroyClient client st2)
            | _ => (respond 400 Failure, destroyClient client st2)
            end
          else (respond 400 Failure, destroyClient client st1)
      end
  end.

Definition guildMembers (requestToken guildId : option string) (d : Discord) (st : State)
  : Response * State :=
  match Token.loginToken Token.GuildMembers (env_DISCORD_BOT_TOKEN st) requestToken with
  | None => (respond 400 Failure, st)
  | Some token =>
      let '(client, st1) := newClient st in
      if login d token then
        let st2 := destroyClient client (loggedIn client token st1) in
        let noBots := filter (fun member => Preview.js_not (Preview.view_bot member) = true) in
        if truthy guildId then
          match guilds_fetch d (default EmptyString guildId) with
          | Rejects => (respond 400 Failure, st2)
          | Resolves None => (respond 404 Failure, st2)
          | Resolves (Some guild) =>
              match members_fetch guild with
              | Rejects => (respond 400 Failure, st2)
              | Resolves cache =>
                  (respond 200 (Members (noBots (map (Preview.viewOf guild) cache))), st2)
              end
          end
        else (respond 200 (Members (Preview.allGuildMembers (guilds_cache d))), st2)
      else (respond 400 Failure, destroyClient client st1)
  end.

Definition guilds (requestToken : option string) (d : Discord) (st : State)
  : Response * State :=
  match Token.loginToken Token.Guilds (env_DISCORD_BOT_TOKEN st) requestToken with
  | None => (respond 400 Failure, st)
  | Some token =>
      let '(client, st1) := newClient st in
      if login d token
      then (respond 200 (GuildList (guilds_cache d)),
            destroyClient client (loggedIn client token st1))
      else (respond 400 Failure, destroyClient client st1)
  end.

(** *** POST /api/dm/bulk (lines 310-483) *)

(** [validation.data] of [bulkDmSchema.safeParse(req.body)]. *)
Record BulkBody := {
  requestToken : option string;
  userIds : list string;
  message : string;
  selectAll : bool;
  delay : option Z
}.

(** Lines 413-455: "Instead of destroying the client, save it to listen
    for replies". *)
Definition handoff (client : nat) (st : State) : State :=
  let st1 :=
    match discordClient st with
    | Some previous => destroyClient previous st
    | None => st
    end in
  let st2 := with_discordClient (Some client) st1 in
  onMessageCreateRegistered client st2.

(** The handler.  Between [new Client] and the hand-off it awaits the
    platform only and touches no shared state, so the whole request is
    one step placed at the instant of its hand-off (or of its abort). *)
Definition bulkDm (validation : option BulkBody) (d : Discord) (st : State)
  : Response * State :=
  match validation with
  | None => (respond 400 Failure, st)
  | Some data =>
      match Token.loginToken Token.DmBulk (env_DISCORD_BOT_TOKEN st) (requestToken data) with
      | None => (respond 400 Failure, st)
      | Some token =>
          let '(client, st1) := newClient st in
          if login d token then
            let st2 := loggedIn client token st1 in
            let targetUserIds :=
              Resolver.resolveTargets (userIds data) (selectAll data) (guilds_cache d) in
            let results :=
              Dispatch.results
                (Dispatch.sendLoop d targetUserIds (message data) (delay data)) in
            (respond 200 (Tally (Dispatch.success results) (Dispatch.failed results)
                            (Dispatch.failedIds results)),
             handoff client st2)
          else (respond 400 Failure, destroyClient client st1)
      end
  end.

(** *** POST /api/startReplyListener (lines 627-705)
    Everything up to [await discordClient.login(token)] is one synchronous
    block; what follows the login only answers the request, so the login's
    outcome is taken together with the block.  The handler's [catch] only
    logs and answers 500: when the login rejects, the slot keeps the new
    client, which [login] itself has destroyed. *)

Definition startReplyListener (token : option string) (d : Discord) (st : State)
  : Response * State :=
  match Token.loginToken Token.StartReplyListener (env_DISCORD_BOT_TOKEN st) token with
  | None => (respond 400 Failure, st)
  | Some token =>
      let st1 :=
        match discordClient st with
        | Some previous => with_discordClient None (destroyClient previous st)
        | None => st
        end in
      let '(client, st2) := newClient st1 in
      let st3 := onMessageCreateRegistered client (with_discordClient (Some client) st2) in
      if login d token
      then (respond 200 Done, loggedIn client token st3)
      else (respond 500 Failure, loginRejected client st3)
  end.

(** *** Reply ingestion and fan-out *)

(** [client.send(frame)] guarded by [client.readyState === WebSocket.OPEN];
    a socket that is not open takes no frame. *)
Definition isOpen (s : ReadyState) : bool :=
  match s with OPEN => true | _ => false end.

Definition accept (frame : Frame) (s : Socket) : Socket :=
  if isOpen (readyState s)
  then {| readyState := readyState s; received := received s ++ [frame];
          history := history s |}
  else s.

Definition deliver (frame : Frame) (ws : nat) (socks : list Socket) : list Socket :=
  alter (accept frame) ws socks.

(** [clients.forEach(client => { if (client.readyState === WebSocket.OPEN)
    client.send(messageToSend) })] *)
Definition broadcast (frame : Frame) (st : State) : State :=
  with_sockets (foldl (fun socks ws => deliver frame ws socks) (sockets st) (clients st)) st.

(** The block of a reply handler that ends at [await insert]: a rejected
    insert ends in the handler's [catch]; a committed one leaves the row
    for the continuation. *)
Definition store (accepted : bool) (values : Reply) (st : State) : State :=
  match insertReply accepted values (messageReplies st) with
  | (Resolves row, table) =>
      with_resuming (resuming st ++ [row]) (with_messageReplies table st)
  | (Rejects, _) => st
  end.

(** The continuation of the [k]-th awaited insert: serialize the stored
    row and broadcast it. *)
Definition resume (k : nat) (st : State) : State :=
  match resuming st !! k with
  | Some row => broadcast (NewReply row) (with_resuming (delete k (resuming st)) st)
  | None => st
  end.

(** A message received by a session. *)
Record Message := {
  channel_isDMBased : bool;                (* message.channel.isDMBased() *)
  author_bot : bool;                       (* message.author.bot *)
  author_id : string;
  author_username : string;
  author_avatar : string;                  (* displayAvatarURL({ size: 64 }) *)
  message_id : string;
  message_content : string
}.

Definition replyOf (m : Message) (now : nat) : Reply :=
  {| userId := author_id m; username := author_username m;
     content := message_content m; messageId := message_id m;
     timestamp := now; avatarUrl := Some (author_avatar m);
     guildId := None; guildName := None |}.

(** The [Events.MessageCreate] listener, the same text at both
    registration sites (lines 422-455 and 656-689). *)
Definition onMessageCreate (m : Message) (now : nat) (accepted : bool) (st : State)
  : State :=
  if channel_isDMBased m && negb (author_bot m)
  then store accepted (replyOf m now) st
  else st.

(** The platform delivers a message to a client: every registered
    listener runs; a destroyed or never logged-in client receives nothing. *)
Definition emitMessageCreate (client : nat) (m : Message) (now : nat) (accepted : bool)
    (st : State) : State :=
  match heap st !! client with
  | Some c =>
      if destroyed c || negb (bool_decide (is_Some (client_token c))) then st
      else Nat.iter (observers c) (onMessageCreate m now accepted) st
  | None => st
  end.

(** The fields read from the body of POST /api/replies and from a
    WebSocket [reply] message. *)
Record ReplyBody := {
  body_userId : string;
  body_username : string;
  body_content : string;
  body_messageId : string;
  body_avatarUrl : option string;
  body_guildId : option string;
  body_guildName : option string
}.

Definition valuesOf (b : ReplyBody) (now : nat) : Reply :=
  {| userId := body_userId b; username := body_username b;
     content := body_content b; messageId := body_messageId b;
     timestamp := now; avatarUrl := body_avatarUrl b;
     guildId := body_guildId b; guildName := body_guildName b |}.

(** POST /api/replies (lines 517-549), up to its [await]. *)
Definition postReplies (b : ReplyBody) (now : nat) (accepted : bool) (st : State) : State :=
  store accepted (valuesOf b now) st.

(** *** The WebSocket server (lines 555-624) *)

(** [clients.add(ws)] and [clients.delete(ws)] on the insertion-ordered set. *)
Definition setAdd (ws : nat) (set : list nat) : list nat :=
  if bool_decide (ws ∈ set) then set else set ++ [ws].
Definition setDelete (ws : nat) (set : list nat) : list nat :=
  filter (fun x => x ≠ ws) set.

(** [wss.on('connection', ws => ...)]: a new open socket joins [clients]
    and the history query is issued. *)
Definition wsConnection (st : State) : State :=
  let ws := length (sockets st) in
  with_clients (setAdd ws (clients st))
    (with_sockets (sockets st ++ [{| readyState := OPEN; received := []; history := QIssued |}])
       st).

Definition setHistory (q : Query) (ws : nat) (st : State) : State :=
  with_sockets
    (alter (fun s => {| readyState := readyState s; received := received s; history := q |})
       ws (sockets st)) st.

(** The database answers the history query of [ws]. *)
Definition historyAnswered (ws : nat) (ok : bool) (st : State) : State :=
  match sockets st !! ws with
  | Some s =>
      match history s with
      | QIssued =>
          setHistory
            (QAnswered (if ok then Resolves (orderByTimestamp (messageReplies st)) else Rejects))
            ws st
      | _ => st
      end
  | None => st
  end.

(** The [then] callback ([ws.send(initialData)], whose failure on a socket
    that is no longer open goes to [catch]) or the [catch] callback. *)
Definition historySettled (ws : nat) (st : State) : State :=
  match sockets st !! ws with
  | Some s =>
      match history s with
      | QAnswered (Resolves replies) =>
          setHistory QSettled ws
            (with_sockets (deliver (InitialReplies replies) ws (sockets st)) st)
      | QAnswered Rejects => setHistory QSettled ws st
      | _ => st
      end
  | None => st
  end.

(** [JSON.parse(message.toString())] of a client frame, when it parses. *)
Record WsData := {
  data_type : string;
  data_body : ReplyBody
}.

(** [ws.on('message', ...)], up to its [await]. *)
Definition wsMessage (ws : nat) (data : option WsData) (now : nat) (accepted : bool)
    (st : State) : State :=
  match sockets st !! ws, data with
  | Some _, Some parsed =>
      if bool_decide (data_type parsed = "reply")
      then store accepted (valuesOf (data_body parsed) now) st
      else st
  | _, _ => st
  end.

Definition setReadyState (r : ReadyState) (ws : nat) (st : State) : State :=
  with_sockets
    (alter (fun s => {| readyState := r; received := received s; history := history s |})
       ws (sockets st)) st.

(** [ws.on('close', ...)] and [ws.on('error', ...)] *)
Definition wsClose (ws : nat) (st : State) : State :=
  with_clients (setDelete ws (clients st)) (setReadyState CLOSED ws st).
Definition wsError (ws : nat) (st : State) : State :=
  with_clients (setDelete ws (clients st)) st.

(** *** The transition system *)

Inductive Event :=
| DmSingleRequest (validation : option SingleBody) (d : Discord)
| GuildMembersRequest (requestToken guildId : option string) (d : Discord)
| GuildsRequest (requestToken : option string) (d : Discord)
| BulkRequest (validation : option BulkBody) (d : Discord)
| StartReplyListenerRequest (token : option string) (d : Discord)
| MessageCreate (client : nat) (m : Message) (now : nat) (accepted : bool)
| PostReplies (b : ReplyBody) (now : nat) (accepted : bool)
| InsertResumed (k : nat)
| WsConnection
| WsHistoryAnswered (ws : nat) (ok : bool)
| WsHistorySettled (ws : nat)
| WsMessage (ws : nat) (data : option WsData) (now : nat) (accepted : bool)
| WsClosing (ws : nat)
| WsClose (ws : nat)
| WsError (ws : nat).

Definition step (st : State) (e : Event) : State :=
  match e with
  | DmSingleRequest validation d => snd (dmSingle validation d st)
  | GuildMembersRequest requestToken guildId d => snd (guildMembers requestToken guildId d st)
  | GuildsRequest requestToken d => snd (guilds requestToken d st)
  | BulkRequest validation d => snd (bulkDm validation d st)
  | StartReplyListenerRequest token d => snd (startReplyListener token d st)
  | MessageCreate client m now accepted => emitMessageCreate client m now accepted st
  | PostReplies b now accepted => postReplies b now accepted st
  | InsertResumed k => resume k st
  | WsConnection => wsConnection st
  | WsHistoryAnswered ws ok => historyAnswered ws ok st
  | WsHistorySettled ws => historySettled ws st
  | WsMessage ws data now accepted => wsMessage ws data now accepted st
  | WsClosing ws => setReadyState CLOSING ws st
  | WsClose ws => wsClose ws st
  | WsError ws => wsError ws st
  end.

Definition run (st : State) (events : list Event) : State := foldl step st events.

(** *** Observations *)

(** A session listens when a message delivered to it runs the reply
    observer (see [emitMessageCreate]): it is not destroyed, its login has
    resolved, and it has the [MessageCreate] listener registered. *)
Definition listening (st : State) (client : nat) : Prop :=
  ∃ c, heap st !! client = Some c ∧ destroyed c = false ∧
       is_Some (client_token c) ∧ 0 < observers c.

Definition isDestroyed (st : State) (client : nat) : Prop :=
  ∃ c, heap st !! client = Some c ∧ destroyed c = true.

(** The payloads of the [newReply] frames among the frames of a socket. *)
Fixpoint newReplies (frames : list Frame) : list Reply :=
  match frames with
  | [] => []
  | NewReply r :: rest => r :: newReplies rest
  | InitialReplies _ :: rest => newReplies rest
  end.

Definition framesOf (st : State) (ws : nat) : list Frame :=
  match sockets st !! ws with
  | Some s => received s
  | None => []
  end.

End Server.

(** ** Properties under test and sample platforms *)



(** "The loop suspends for delayMs after processing each target except the
    last one": the waits are those after positions 1 .. n-1. *)
Definition waits_after_all_but_last (d : Discord) (targetUserIds : list string)
    (message : string) (ms : Z) : Prop :=
  Dispatch.waitsAfter
    (Dispatch.journal (Dispatch.sendLoop d targetUserIds message (Some ms)))
  = map (fun k => (k, ms)) (seq 1 (length targetUserIds - 1)).

(** "The target id sequence contains no duplicate ids and no entries whose
    resolved user is a bot." *)
Definition clean_targets (d : Discord) (targetUserIds : list string) : Prop :=
  NoDup targetUserIds ∧
  ∀ id w u, id ∈ targetUserIds →
            fst (users_fetch d id w) = Resolves (Some u) → user_bot u = false.

(** "When both tokens are present the configured token is the one used;
    when only one is present, that one is used." *)
Definition configuration_first (e : Token.Endpoint) (envToken requestToken : option string)
  : Prop :=
  (truthy envToken = true → Token.loginToken e envToken requestToken = envToken) ∧
  (truthy envToken = false → truthy requestToken = true →
   Token.loginToken e envToken requestToken = requestToken).

Module Sample.

(** A platform without state: every token logs in, [lookup] answers
    [client.users.fetch], a direct channel always opens, and [delivers]
    tells whether [send] resolves. *)
Definition platform (guildArray : list Guild) (lookup : string → Awaited (option User))
    (delivers : string → bool) : Discord :=
  {| World := unit; world0 := tt;
     login := fun _ => true;
     guilds_cache := guildArray;
     guilds_fetch := fun _ => Rejects;
     users_fetch := fun id w => (lookup id, w);
     createDM := fun _ w => (true, w);
     send := fun id _ w => (delivers id, w) |}.

(** A platform that rejects every login. *)
Definition offline : Discord :=
  {| World := unit; world0 := tt;
     login := fun _ => false;
     guilds_cache := [];
     guilds_fetch := fun _ => Rejects;
     users_fetch := fun _ w => (Rejects, w);
     createDM := fun _ w => (false, w);
     send := fun _ _ w => (false, w) |}.

Definition human : Awaited (option User) := Resolves (Some {| user_bot := false |}).
Definition robot : Awaited (option User) := Resolves (Some {| user_bot := true |}).

(** Every id is a person who can be reached. *)
Definition everyone : Discord := platform [] (fun _ => human) (fun _ => true).

(** Resolving "B" throws; every other id is a person who can be reached. *)
Definition withoutB : Discord :=
  platform [] (fun id => if bool_decide (id = "B") then Rejects else human) (fun _ => true).

Definition member (id : string) (bot : bool) : GuildMember :=
  {| member_id := id; member_username := id; member_displayName := id;
     member_avatar := "a.png"; member_bot := bot |}.

Definition guildOne : Guild :=
  {| guild_id := "g1"; guild_name := "one";
     members_fetch := Resolves [member "X" false; member "R" true] |}.
Definition guildDown : Guild :=
  {| guild_id := "g2"; guild_name := "two"; members_fetch := Rejects |}.
Definition guildThree : Guild :=
  {| guild_id := "g3"; guild_name := "three";
     members_fetch := Resolves [member "X" false; member "Y" false] |}.

(** "R" is a bot account, a member of the first guild. *)
Definition withRobot : Discord :=
  platform [guildOne; guildDown; guildThree]
    (fun id => if bool_decide (id = "R") then robot else human) (fun _ => true).

Definition bulkBody (ids : list string) (all : bool) (wait : option Z) : Server.BulkBody :=
  {| Server.requestToken := Some "req"; Server.userIds := ids; Server.message := "hi";
     Server.selectAll := all; Server.delay := wait |}.

Definition hello : Server.ReplyBody :=
  {| Server.body_userId := "42"; Server.body_username := "ann";
     Server.body_content := "hello"; Server.body_messageId := "m1";
     Server.body_avatarUrl := None; Server.body_guildId := None;
     Server.body_guildName := None |}.

Definition directMessage : Server.Message :=
  {| Server.channel_isDMBased := true; Server.author_bot := false;
     Server.author_id := "42"; Server.author_username := "ann";
     Server.author_avatar := "a.png"; Server.message_id := "m1";
     Server.message_content := "hello" |}.

(** A reply is posted and committed; a subscriber connects and its history
    query is issued; the handler of the insert resumes and broadcasts;
    then the history query is answered and its callback runs. *)
Definition lateHistory : list Server.Event :=
  [Server.PostReplies hello 5 true;
   Server.WsConnection;
   Server.InsertResumed 0;
   Server.WsHistoryAnswered 0 true;
   Server.WsHistorySettled 0].

(** The history query of the subscriber rejects; a reply arrives later. *)
Definition lostHistory : list Server.Event :=
  [Server.WsConnection;
   Server.WsHistoryAnswered 0 false;
   Server.WsHistorySettled 0;
   Server.PostReplies hello 5 true;
   Server.InsertResumed 0].

End Sample.

(** ** Auxiliary notions for the proofs *)

(** [t'] is [t] followed by pairwise distinct ids that are new to [t] and
    satisfy [P]. *)
Definition extends (P : string → Prop) (t t' : list string) : Prop :=
  ∃ added, t' = t ++ added ∧ NoDup added ∧ ∀ x, x ∈ added → (x ∉ t) ∧ P x.

(** What the fan-out keeps true: [clients] is a set; every row still
    waiting for its handler to resume is in the table; and for every socket
    the rows it was sent as [newReply], together with the waiting rows, are
    rows of the table, each counted as often as it was inserted. *)
Definition fanout_inv (st : Server.State) : Prop :=
  NoDup (Server.clients st) ∧
  Server.resuming st ⊆+ Server.messageReplies st ∧
  ∀ ws s, Server.sockets st !! ws = Some s →
          Server.newReplies (Server.received s) ++ Server.resuming st
          ⊆+ Server.messageReplies st.

(** What the listener slot keeps true: a session that listens is the
    holder of the slot, and the slot names a constructed client. *)
Definition slot_inv (st : Server.State) : Prop :=
  (∀ c, Server.listening st c → Server.discordClient st = Some c) ∧
  (∀ c, Server.discordClient st = Some c → c < length (Server.heap st)).

(** The part of the state that the request handlers leave alone, and the
    part that the reply and WebSocket handlers leave alone. *)
Definition same_fanout (st st' : Server.State) : Prop :=
  Server.clients st' = Server.clients st ∧
  Server.sockets st' = Server.sockets st ∧
  Server.messageReplies st' = Server.messageReplies st ∧
  Server.resuming st' = Server.resuming st.

Definition same_sessions (st st' : Server.State) : Prop :=
  Server.heap st' = Server.heap st ∧
  Server.discordClient st' = Server.discordClient st.

(** The two shapes of a request's effect on the sessions.  [quiet]: the
    slot is as before and the heap gained at most one client, destroyed.
    [handed_over]: the former holder of the slot, if any, is destroyed, and
    a new client with one listener holds the slot; it is logged in and not
    destroyed when its login resolved ([attached]), and destroyed when its
    login rejected. *)
Definition quiet (st st' : Server.State) : Prop :=
  Server.discordClient st' = Server.discordClient st ∧
  (Server.heap st' = Server.heap st ∨
   ∃ c, Server.destroyed c = true ∧ Server.heap st' = Server.heap st ++ [c]).

Definition retire (previous : option nat) (h : list Server.Client) : list Server.Client :=
  match previous with
  | Some p =>
      alter (fun c => {| Server.destroyed := true; Server.client_token := None;
                         Server.observers := Server.observers c |}) p h
  | None => h
  end.

Definition handed_over (attached : bool) (st st' : Server.State) : Prop :=
  Server.discordClient st' = Some (length (Server.heap st)) ∧
  ∃ c, (if attached
        then Server.destroyed c = false ∧ is_Some (Server.client_token c)
        else Server.destroyed c = true) ∧
       Server.observers c = 1 ∧
       Server.heap st' = retire (Server.discordClient st) (Server.heap st) ++ [c].

(** [x] is the id of a member, not flagged as a bot, of a guild of
    [guildArray] whose member fetch resolved. *)
Definition enumerated (guildArray : list Guild) (x : string) : Prop :=
  ∃ guild cache m,
    guild ∈ guildArray ∧ members_fetch guild = Resolves cache ∧
    m ∈ cache ∧ member_id m = x ∧ member_bot m = false.

(** ** Further observations on journals, previews, sessions and frames *)

(** The ids the loop resolved and the ids it sent the message to, in
    order. *)
Fixpoint fetchedIds (j : list Dispatch.Action) : list string :=
  match j with
  | [] => []
  | Dispatch.AFetch userId _ :: j' => userId :: fetchedIds j'
  | _ :: j' => fetchedIds j'
  end.

Fixpoint sentIds (j : list Dispatch.Action) : list string :=
  match j with
  | [] => []
  | Dispatch.ASent userId :: j' => userId :: sentIds j'
  | _ :: j' => sentIds j'
  end.

(** The members of [l] whose id is neither in [seen] nor carried by an
    earlier member of [l]. *)
Fixpoint firstOccurrences (seen : list string) (l : list Preview.MemberView)
  : list Preview.MemberView :=
  match l with
  | [] => []
  | x :: rest =>
      if bool_decide (Preview.id x ∈ seen) then firstOccurrences seen rest
      else x :: firstOccurrences (Preview.id x :: seen) rest
  end.

(** The views that one guild contributes to the all-guilds preview. *)
Definition viewsOf (guild : Guild) : list Preview.MemberView :=
  match members_fetch guild with
  | Resolves cache => map (Preview.viewOf guild) cache
  | Rejects => []
  end.

(** A session on which [destroy()] has not been called. *)
Definition live (st : Server.State) (client : nat) : Prop :=
  ∃ c, Server.heap st !! client = Some c ∧ Server.destroyed c = false.

(** What the handlers keep true of the sessions: a client that is not
    destroyed holds the slot and carries the reply observer once. *)
Definition session_inv (st : Server.State) : Prop :=
  ∀ client c, Server.heap st !! client = Some c → Server.destroyed c = false →
              Server.discordClient st = Some client ∧ Server.observers c = 1.

(** The payloads of the [initialReplies] frames among the frames of a
    socket. *)
Fixpoint initialReplies (frames : list Server.Frame) : list (list Server.Reply) :=
  match frames with
  | [] => []
  | Server.InitialReplies data :: rest => data :: initialReplies rest
  | Server.NewReply _ :: rest => initialReplies rest
  end.

(** [rows] is a snapshot of the store taken when it held at least [before]
    and at most [current]: the rows of some state of the append-only table
    in between, in any order. *)
Definition snapshot (before current rows : list Server.Reply) : Prop :=
  ∃ table, before `prefix_of` table ∧ table `prefix_of` current ∧ rows ≡ₚ table.

(** What is kept true of the socket [ws] that connected when the store
    held [before]: no [initialReplies] frame before its history query is
    settled, at most one after, and the rows it carries are a snapshot. *)
Definition history_inv (before : list Server.Reply) (ws : nat) (st : Server.State) : Prop :=
  before `prefix_of` Server.messageReplies st ∧
  ∃ s, Server.sockets st !! ws = Some s ∧
       match Server.history s with
       | Server.QIssued | Server.QAnswered Rejects => initialReplies (Server.received s) = []
       | Server.QAnswered (Resolves rows) =>
           initialReplies (Server.received s) = [] ∧
           snapshot before (Server.messageReplies st) rows
       | Server.QSettled =>
           initialReplies (Server.received s) = [] ∨
           ∃ rows, initialReplies (Server.received s) = [rows] ∧
                   snapshot before (Server.messageReplies st) rows
       end.

(** Case analysis over every [match] and [if] of a handler. *)
Ltac handler_cases :=
  repeat (match goal with
          | |- context [match ?x with _ => _ end] => destruct x
          end; cbn [fst snd]).

(** * Credential selection *)

Section TokenFacts.
Import Token.

Lemma or_else_truthy a b : truthy a = true → or_else a b = a.
Proof. unfold or_else. now intros ->. Qed.

Lemma or_else_falsy a b : truthy a = false → or_else a b = b.
Proof. unfold or_else. now intros ->. Qed.

(** C8, as stated, fails on /api/startReplyListener: with the configured
    token "cfg" and the request token "req" both present, the handler logs
    in with "req". *)
Lemma startReplyListener_skips_configuration :
  ¬ configuration_first StartReplyListener (Some "cfg") (Some "req").
Proof.
  intros [Hboth _]. specialize (Hboth eq_refl).
  vm_compute in Hboth. discriminate Hboth.
Qed.

(** C8, amended: on /api/dm/single, /api/guild/members, /api/guilds and
    /api/dm/bulk the configured token is used when it is present and the
    request token otherwise; /api/startReplyListener uses the request token
    and nothing else; with no token at all every endpoint answers 400. *)
Theorem token_selection (e : Endpoint) (envToken requestToken : option string) :
  (e ≠ StartReplyListener → configuration_first e envToken requestToken) ∧
  (e = StartReplyListener →
   loginToken e envToken requestToken
   = if truthy requestToken then requestToken else None) ∧
  (truthy envToken = false → truthy requestToken = false →
   loginToken e envToken requestToken = None).
Proof.
  split; [|split].
  - intros He. unfold configuration_first, loginToken.
    assert (selectToken e envToken requestToken = or_else envToken requestToken) as ->
      by (destruct e; try reflexivity; congruence).
    split.
    + intros Henv. rewrite (or_else_truthy _ _ Henv). now rewrite Henv.
    + intros Henv Hreq. rewrite (or_else_falsy _ _ Henv). now rewrite Hreq.
  - intros ->. reflexivity.
  - intros Henv Hreq. unfold loginToken.
    destruct e; cbn [selectToken]; rewrite ?(or_else_falsy _ _ Henv); now rewrite Hreq.
Qed.

(** The selection at sample tokens. *)
Lemma token_selection_witness :
  loginToken DmBulk (Some "cfg") (Some "req") = Some "cfg" ∧
  loginToken DmBulk None (Some "req") = Some "req" ∧
  loginToken StartReplyListener (Some "cfg") (Some "req") = Some "req" ∧
  loginToken StartReplyListener (Some "cfg") None = None.
Proof.
  split; [|split; [|split]].
  - destruct (token_selection DmBulk (Some "cfg") (Some "req")) as [[H _] _];
      [discriminate | exact (H eq_refl)].
  - destruct (token_selection DmBulk None (Some "req")) as [[_ H] _];
      [discriminate | exact (H eq_refl eq_refl)].
  - destruct (token_selection StartReplyListener (Some "cfg") (Some "req")) as (_ & H & _).
    exact (H eq_refl).
  - destruct (token_selection StartReplyListener (Some "cfg") None) as (_ & H & _).
    exact (H eq_refl).
Defined.

End TokenFacts.

(** * Recipient resolution *)

Section ResolverFacts.
Import Resolver.

Lemma extends_refl P t : extends P t t.
Proof.
  exists []. rewrite app_nil_r. split; [done|]. split; [constructor|].
  intros x Hx. inversion Hx.
Qed.

Lemma extends_trans P t1 t2 t3 :
  extends P t1 t2 → extends P t2 t3 → extends P t1 t3.
Proof.
  intros (a1 & -> & Hnd1 & H1) (a2 & -> & Hnd2 & H2).
  exists (a1 ++ a2). rewrite app_assoc. split; [done|]. split.
  - apply NoDup_app. split; [done|]. split; [|done].
    intros x Hx1 Hx2. destruct (H2 x Hx2) as [Hfresh _].
    apply Hfresh, elem_of_app. now right.
  - intros x [Hx|Hx]%elem_of_app; [now apply H1|].
    destruct (H2 x Hx) as [Hfresh HP]. split; [|done].
    intros Hin. apply Hfresh, elem_of_app. now left.
Qed.

Lemma extends_weaken (P Q : string → Prop) t t' :
  (∀ x, P x → Q x) → extends P t t' → extends Q t t'.
Proof.
  intros HPQ (a & -> & Hnd & H). exists a. split; [done|]. split; [done|].
  intros x Hx. destruct (H x Hx). auto.
Qed.

Lemma addMember_extends t m :
  extends (fun x => x = member_id m ∧ member_bot m = false) t (addMember t m).
Proof.
  unfold addMember, includes.
  destruct (member_bot m) eqn:Hbot; cbn [negb andb]; [apply extends_refl|].
  case_bool_decide as Hin; cbn [negb]; [apply extends_refl|].
  exists [member_id m]. split; [done|]. split; [apply NoDup_singleton|].
  intros x ->%list_elem_of_singleton. done.
Qed.

Lemma foldl_addMember_extends cache t :
  extends (fun x => ∃ m, m ∈ cache ∧ member_id m = x ∧ member_bot m = false)
    t (foldl addMember t cache).
Proof.
  revert t. induction cache as [|m cache IH]; intros t; cbn [foldl].
  - apply extends_refl.
  - eapply extends_trans.
    + eapply extends_weaken; [|apply addMember_extends].
      intros x [-> Hbot]. exists m. split; [left|done].
    + eapply extends_weaken; [|apply IH].
      intros x (m' & Hin & Hid & Hbot). exists m'. split; [now right|done].
Qed.

Lemma addGuild_extends t guild :
  extends (enumerated [guild]) t (addGuild t guild).
Proof.
  unfold addGuild. destruct (members_fetch guild) as [|cache] eqn:Hfetch.
  - apply extends_refl.
  - eapply extends_weaken; [|apply foldl_addMember_extends].
    intros x (m & Hin & Hid & Hbot). exists guild, cache, m.
    split; [left|done].
Qed.

Lemma foldl_addGuild_extends guildArray t :
  extends (enumerated guildArray) t (foldl addGuild t guildArray).
Proof.
  revert t. induction guildArray as [|guild guildArray IH]; intros t; cbn [foldl].
  - apply extends_refl.
  - eapply extends_trans.
    + eapply extends_weaken; [|apply addGuild_extends].
      intros x (g & cache & m & ->%list_elem_of_singleton & H).
      exists guild, cache, m. split; [left|done].
    + eapply extends_weaken; [|apply IH].
      intros x (g & cache & m & Hin & H). exists g, cache, m. split; [now right|done].
Qed.

Lemma extends_NoDup P t t' : extends P t t' → NoDup t → NoDup t'.
Proof.
  intros (a & -> & Hnd & H) Ht. apply NoDup_app. split; [done|]. split; [|done].
  intros x Hx Ha. now destruct (H x Ha).
Qed.

(** C5, as stated, fails: the explicit ids are copied as they are.  The
    id "R" of a bot account, given explicitly, is a target although the
    platform resolves it to a bot, with the explicit ids all distinct and
    the select-all enumeration on; and a repeated explicit id stays
    repeated. *)
Lemma explicit_ids_are_kept :
  Resolver.resolveTargets ["R"] true (guilds_cache Sample.withRobot) = ["R"; "X"; "Y"] ∧
  ¬ clean_targets Sample.withRobot
      (Resolver.resolveTargets ["R"] true (guilds_cache Sample.withRobot)) ∧
  Resolver.resolveTargets ["A"; "A"] false [] = ["A"; "A"] ∧
  ¬ clean_targets Sample.withRobot (Resolver.resolveTargets ["A"; "A"] false []).
Proof.
  split; [reflexivity|]. split; [|split; [reflexivity|]].
  - intros [_ Hbot].
    specialize (Hbot "R" tt {| user_bot := true |}).
    discriminate Hbot; [left|reflexivity].
  - intros [Hnd _]. apply NoDup_cons in Hnd as [Hnotin _]. apply Hnotin. left.
Qed.

(** C5, amended: the target sequence is the explicit ids, unchanged and in
    the caller's order, followed by the ids that the select-all enumeration
    adds; the added ids are pairwise distinct, none of them is an explicit
    id, and each belongs to a member not flagged as a bot of a guild whose
    member fetch resolved; hence the sequence has no duplicate whenever
    the explicit ids have none. *)
Theorem resolveTargets_extends (userIds : list string) (selectAll : bool)
    (guildArray : list Guild) :
  (∃ added,
     resolveTargets userIds selectAll guildArray = userIds ++ added ∧
     NoDup added ∧
     ∀ x, x ∈ added → (x ∉ userIds) ∧ selectAll = true ∧ enumerated guildArray x) ∧
  (NoDup userIds → NoDup (resolveTargets userIds selectAll guildArray)).
Proof.
  assert (extends (fun x => selectAll = true ∧ enumerated guildArray x) userIds
            (resolveTargets userIds selectAll guildArray)) as Hext.
  { unfold resolveTargets. destruct selectAll.
    - eapply extends_weaken; [|apply foldl_addGuild_extends]. auto.
    - apply extends_refl. }
  split.
  - destruct Hext as (added & Heq & Hnd & H). exists added. auto.
  - now apply extends_NoDup with (1 := Hext).
Qed.

(** Distinct explicit ids and an enumeration that meets one of them. *)
Lemma resolveTargets_extends_witness :
  NoDup ["A"; "X"] ∧
  NoDup (resolveTargets ["A"; "X"] true (guilds_cache Sample.withRobot)).
Proof.
  assert (NoDup ["A"; "X"]) as Hnd.
  { apply NoDup_cons. split; [|apply NoDup_singleton].
    intros Hin%list_elem_of_singleton. discriminate Hin. }
  split; [exact Hnd|].
  exact (proj2 (resolveTargets_extends ["A"; "X"] true (guilds_cache Sample.withRobot)) Hnd).
Defined.

End ResolverFacts.

(** * The send loop *)

Section DispatchFacts.
Import Dispatch.

Lemma attempted_app j1 j2 : attempted (j1 ++ j2) = attempted j1 + attempted j2.
Proof. unfold attempted. now rewrite filter_app, length_app. Qed.

Lemma botSkips_app j1 j2 : botSkips (j1 ++ j2) = botSkips j1 + botSkips j2.
Proof. unfold botSkips. now rewrite filter_app, length_app. Qed.

Lemma waitsFrom_app n j1 j2 :
  waitsFrom n (j1 ++ j2) = waitsFrom n j1 ++ waitsFrom (n + attempted j1) j2.
Proof.
  revert n. induction j1 as [|a j1 IH]; intros n.
  - cbn. f_equal. unfold attempted. cbn. lia.
  - destruct a; cbn [app waitsFrom]; rewrite IH; unfold attempted;
      rewrite ?(filter_cons_True _ (AFetch _ _)) by reflexivity;
      rewrite ?(filter_cons_False _ (ASent _)) by discriminate;
      rewrite ?(filter_cons_False _ (ASleep _)) by discriminate;
      cbn [length]; rewrite ?Nat.add_succ_r; reflexivity.
Qed.

Lemma sentFrom_app n j1 j2 :
  sentFrom n (j1 ++ j2) = sentFrom n j1 ++ sentFrom (n + attempted j1) j2.
Proof.
  revert n. induction j1 as [|a j1 IH]; intros n.
  - cbn. f_equal. unfold attempted. cbn. lia.
  - destruct a; cbn [app sentFrom]; rewrite IH; unfold attempted;
      rewrite ?(filter_cons_True _ (AFetch _ _)) by reflexivity;
      rewrite ?(filter_cons_False _ (ASent _)) by discriminate;
      rewrite ?(filter_cons_False _ (ASleep _)) by discriminate;
      cbn [length]; rewrite ?Nat.add_succ_r; reflexivity.
Qed.

(** What one iteration appends to the journal and does to the tally: the
    target fails, resolves to a bot, or is sent the message. *)
Lemma sendOne_cases d targetUserIds message delay (s : Loop (World d)) userId :
  let s' := sendOne d targetUserIds message delay s userId in
  ∃ outcome,
    (journal s' = journal s ++ [AFetch userId outcome] ∧
     isBotFetch (AFetch userId outcome) = false ∧
     results s' = recordFailure userId (results s)) ∨
    (journal s' = journal s ++ [AFetch userId outcome] ∧
     isBotFetch (AFetch userId outcome) = true ∧
     results s' = results s) ∨
    (journal s' = journal s ++ [AFetch userId outcome; ASent userId] ++
                  match delayFor delay userId targetUserIds with
                  | Some ms => [ASleep ms]
                  | None => []
                  end ∧
     isBotFetch (AFetch userId outcome) = false ∧
     results s' = recordSuccess (results s)).
Proof.
  unfold sendOne.
  destruct (users_fetch d userId (world s)) as [outcome w1]. exists outcome.
  destruct outcome as [|[[[]]|]]; cbn [user_bot];
    [left; done | right; left; done | | left; done].
  destruct (createDM d userId w1) as [[] w2]; [|left; done].
  destruct (send d userId message w2) as [[] w3]; [|left; done].
  right; right. cbn [results journal]. rewrite <- app_assoc. done.
Qed.

Lemma attempted_fetch userId outcome : attempted [AFetch userId outcome] = 1.
Proof. reflexivity. Qed.

Lemma attempted_sent userId outcome tail :
  (∀ a, a ∈ tail → isFetch a = false) →
  attempted ([AFetch userId outcome; ASent userId] ++ tail) = 1.
Proof.
  intros Htail. unfold attempted. cbn [app].
  rewrite filter_cons_True by reflexivity.
  rewrite filter_cons_False by discriminate. cbn [length]. f_equal.
  induction tail as [|a tail IH]; [done|].
  rewrite filter_cons_False.
  - apply IH. intros b Hb. apply Htail. now right.
  - rewrite (Htail a) by left. discriminate.
Qed.

Lemma delay_tail_no_fetch delay userId targetUserIds a :
  a ∈ match delayFor delay userId targetUserIds with
      | Some ms => [ASleep ms]
      | None => []
      end → isFetch a = false ∧ isBotFetch a = false.
Proof.
  destruct (delayFor delay userId targetUserIds).
  - intros ->%list_elem_of_singleton. done.
  - intros H. inversion H.
Qed.

Lemma botSkips_tail (tail : list Action) :
  (∀ a, a ∈ tail → isBotFetch a = false) → botSkips tail = 0.
Proof.
  intros Htail. unfold botSkips.
  induction tail as [|a tail IH]; [done|].
  rewrite filter_cons_False.
  - apply IH. intros b Hb. apply Htail. now right.
  - rewrite (Htail a) by left. discriminate.
Qed.

(** The tally invariant of the loop, over any list of targets. *)
Lemma loop_tally d targetUserIds message delay (l : list string) :
  let s := foldl (sendOne d targetUserIds message delay) (start d) l in
  attempted (journal s) = length l ∧
  success (results s) + failed (results s) + botSkips (journal s) = attempted (journal s) ∧
  length (failedIds (results s)) = failed (results s).
Proof.
  induction l as [|userId l IH] using rev_ind.
  - cbn. done.
  - rewrite foldl_snoc, length_app. cbn [length].
    set (s := foldl (sendOne d targetUserIds message delay) (start d) l) in *.
    cbn zeta in IH. destruct IH as (Hatt & Hsum & Hlen).
    destruct (sendOne_cases d targetUserIds message delay s userId)
      as (outcome & [(Hj & Hbot & Hr)|[(Hj & Hbot & Hr)|(Hj & Hbot & Hr)]]);
      cbn zeta; rewrite Hj, Hr, attempted_app, botSkips_app.
    + rewrite attempted_fetch. unfold botSkips at 2.
      rewrite filter_cons_False by (rewrite Hbot; discriminate).
      cbn [recordFailure success failed failedIds].
      rewrite filter_nil, length_app. cbn [length]. lia.
    + rewrite attempted_fetch. unfold botSkips at 2.
      rewrite filter_cons_True by (now rewrite Hbot).
      rewrite filter_nil. cbn [length]. lia.
    + rewrite attempted_sent by (intros a Ha; now apply delay_tail_no_fetch in Ha).
      rewrite (botSkips_tail (_ ++ _)).
      * cbn [recordSuccess success failed failedIds]. lia.
      * intros a [Ha|Ha]%elem_of_app; [|now apply delay_tail_no_fetch in Ha].
        apply elem_of_cons in Ha as [->|Ha]; [done|].
        apply list_elem_of_singleton in Ha as ->. done.
Qed.

(** C1: the loop attempts every target; the successes and the failures
    add up to the targets that did not resolve to a bot; [failedIds] has
    one entry per failure; and with targets "A", "B" where resolving "B"
    throws while "A" is a person who receives the message, the tally is
    [{successCount: 1, failedCount: 1, failedIds: ["B"]}]. *)
Theorem sendLoop_tally (d : Discord) (targetUserIds : list string) (message : string)
    (delay : option Z) :
  let loop := sendLoop d targetUserIds message delay in
  attempted (journal loop) = length targetUserIds ∧
  success (results loop) + failed (results loop)
  = attempted (journal loop) - botSkips (journal loop) ∧
  length (failedIds (results loop)) = failed (results loop) ∧
  ((∀ w, fst (users_fetch d "A" w) = Resolves (Some {| user_bot := false |})) →
   (∀ w, fst (createDM d "A" w) = true) →
   (∀ w, fst (send d "A" message w) = true) →
   (∀ w, fst (users_fetch d "B" w) = Rejects) →
   targetUserIds = ["A"; "B"] →
   results loop = {| success := 1; failed := 1; failedIds := ["B"] |}).
Proof.
  cbn zeta.
  destruct (loop_tally d targetUserIds message delay targetUserIds) as (Hatt & Hsum & Hlen).
  fold (sendLoop d targetUserIds message delay) in Hatt, Hsum, Hlen.
  split; [exact Hatt|]. split; [lia|]. split; [exact Hlen|].
  intros HA Hopen Hsend HB ->.
  unfold sendLoop. cbn [foldl]. unfold sendOne at 2. cbn [start world results journal].
  specialize (HA (world0 d)).
  destruct (users_fetch d "A" (world0 d)) as [oA w1]. cbn [fst] in HA. subst oA.
  cbn [user_bot]. specialize (Hopen w1).
  destruct (createDM d "A" w1) as [o w2]. cbn [fst] in Hopen. subst o.
  specialize (Hsend w2).
  destruct (send d "A" message w2) as [o w3]. cbn [fst] in Hsend. subst o.
  unfold sendOne. cbn [world results journal]. specialize (HB w3).
  destruct (users_fetch d "B" w3) as [oB w4]. cbn [fst] in HB. subst oB.
  reflexivity.
Qed.

(** The scenario on a platform where resolving "B" throws. *)
Lemma sendLoop_tally_witness :
  results (sendLoop Sample.withoutB ["A"; "B"] "hi" None)
  = {| success := 1; failed := 1; failedIds := ["B"] |}.
Proof.
  apply (sendLoop_tally Sample.withoutB ["A"; "B"] "hi" None); reflexivity.
Defined.

End DispatchFacts.

(** * The delay between messages *)

Section DelayFacts.
Import Dispatch.

Lemma filter_agree {A} (P Q : A → Prop) `{∀ x, Decision (P x)} `{∀ x, Decision (Q x)}
    (l : list A) :
  (∀ x, x ∈ l → P x ↔ Q x) → filter P l = filter Q l.
Proof.
  induction l as [|x l IH]; intros Hl; [done|].
  rewrite !filter_cons.
  assert (P x ↔ Q x) as Hx by (apply Hl; left).
  rewrite IH by (intros y Hy; apply Hl; now right).
  destruct (decide (P x)), (decide (Q x)); tauto.
Qed.

Lemma sublist_full {A} (l1 l2 : list A) :
  l1 `sublist_of` l2 → length l2 ≤ length l1 → l1 = l2.
Proof.
  induction 1 as [|x l1 l2 Hsub IH|x l1 l2 Hsub IH]; cbn [length]; intros Hlen.
  - done.
  - f_equal. apply IH. lia.
  - apply sublist_length in Hsub. lia.
Qed.

Lemma sentFrom_block n userId outcome delay targetUserIds :
  sentFrom n ([AFetch userId outcome; ASent userId] ++
              match delayFor delay userId targetUserIds with
              | Some ms => [ASleep ms]
              | None => []
              end) = [S n].
Proof. cbn. now destruct (delayFor delay userId targetUserIds). Qed.

Lemma waitsFrom_block n userId outcome ms targetUserIds :
  (0 < ms)%Z →
  waitsFrom n ([AFetch userId outcome; ASent userId] ++
               match delayFor (Some ms) userId targetUserIds with
               | Some ms' => [ASleep ms']
               | None => []
               end)
  = if decide (Some userId ≠ last targetUserIds) then [(S n, ms)] else [].
Proof.
  intros Hms. cbn [app waitsFrom]. unfold delayFor.
  apply Z.ltb_lt in Hms. rewrite Hms. cbn [andb].
  case_bool_decide as Hlast; cbn [negb].
  - rewrite decide_False by tauto. done.
  - rewrite decide_True by done. done.
Qed.

(** The loop over a prefix [l] of the targets, with a positive delay: the
    positions that were sent the message are among 1 .. |l|, as many as the
    success count, and the loop waited after exactly those of them whose id
    is not the id in the last position. *)
Lemma loop_waits d targetUserIds message ms (l rest : list string) :
  (0 < ms)%Z → targetUserIds = l ++ rest →
  let s := foldl (sendOne d targetUserIds message (Some ms)) (start d) l in
  sentAt (journal s) `sublist_of` seq 1 (length l) ∧
  length (sentAt (journal s)) = success (results s) ∧
  waitsAfter (journal s)
  = map (fun k => (k, ms))
      (filter (fun k => targetUserIds !! (k - 1) ≠ last targetUserIds) (sentAt (journal s))).
Proof.
  intros Hms. revert rest.
  induction l as [|userId l IH] using rev_ind; intros rest Htargets.
  - cbn. split; [constructor|done].
  - rewrite foldl_snoc, length_app. cbn [length].
    rewrite <- app_assoc in Htargets. cbn [app] in Htargets.
    destruct (IH _ Htargets) as (Hsub & Hlen & Hwaits). clear IH.
    destruct (loop_tally d targetUserIds message (Some ms) l) as (Hatt & _).
    set (s := foldl (sendOne d targetUserIds message (Some ms)) (start d) l) in *.
    cbn zeta in *. rewrite seq_app. cbn [seq].
    assert (targetUserIds !! length l = Some userId) as Hlookup
      by (rewrite Htargets; now apply list_lookup_middle).
    unfold waitsAfter, sentAt in *.
    destruct (sendOne_cases d targetUserIds message (Some ms) s userId)
      as (outcome & [(Hj & _ & Hr)|[(Hj & _ & Hr)|(Hj & _ & Hr)]]);
      rewrite Hj, Hr, waitsFrom_app, sentFrom_app, Hatt; cbn [Nat.add].
    + cbn [sentFrom waitsFrom recordFailure success]. rewrite !app_nil_r.
      split; [now apply sublist_inserts_r|done].
    + cbn [sentFrom waitsFrom]. rewrite !app_nil_r.
      split; [now apply sublist_inserts_r|done].
    + rewrite sentFrom_block, waitsFrom_block by done.
      split; [apply sublist_app; [done|reflexivity]|].
      split; [rewrite length_app; cbn [length recordSuccess success]; lia|].
      rewrite filter_app, map_app, Hwaits. f_equal.
      rewrite filter_singleton by exact [].
      replace (S (length l) - 1) with (length l) by lia. rewrite Hlookup.
      destruct (decide (Some userId ≠ last targetUserIds)); done.
Qed.

Lemma last_position (targetUserIds : list string) k :
  k = length targetUserIds → targetUserIds !! (k - 1) = last targetUserIds.
Proof. intros ->. rewrite last_lookup. f_equal. lia. Qed.

Lemma distinct_last_position (targetUserIds : list string) k :
  NoDup targetUserIds → 1 ≤ k ≤ length targetUserIds →
  targetUserIds !! (k - 1) = last targetUserIds → k = length targetUserIds.
Proof.
  intros Hnd Hk Heq. rewrite last_lookup in Heq.
  destruct (lookup_lt_is_Some_2 targetUserIds (k - 1)) as [x Hx]; [lia|].
  rewrite Hx in Heq. symmetry in Heq.
  pose proof (NoDup_lookup _ _ _ _ Hnd Hx Heq). lia.
Qed.

Lemma filter_all {A} (P : A → Prop) `{∀ x, Decision (P x)} (l : list A) :
  (∀ x, x ∈ l → P x) → filter P l = l.
Proof.
  induction l as [|x l IH]; intros Hl; [done|].
  rewrite filter_cons_True by (apply Hl; left).
  f_equal. apply IH. intros y Hy. apply Hl. now right.
Qed.

Lemma seq_without_last n :
  filter (fun k => k ≠ n) (seq 1 n) = seq 1 (n - 1).
Proof.
  destruct n as [|n]; [done|].
  replace (S n - 1) with n by lia.
  rewrite seq_S, filter_app, filter_singleton by exact [].
  rewrite decide_False by lia. rewrite app_nil_r.
  apply filter_all. intros k Hk%list_elem_of_In%in_seq. lia.
Qed.

(** C6, as stated, fails: with delay 100 and the three targets "A", "B",
    "C" of which "B" cannot be resolved, the loop waits once, after "A". *)
Lemma no_wait_after_a_failure :
  waitsAfter (journal (sendLoop Sample.withoutB ["A"; "B"; "C"] "hi" (Some 100%Z)))
  = [(1, 100%Z)] ∧
  ¬ waits_after_all_but_last Sample.withoutB ["A"; "B"; "C"] "hi" 100.
Proof.
  split; [reflexivity|].
  unfold waits_after_all_but_last. vm_compute. discriminate.
Qed.

(** C6, amended: with a delay greater than zero the loop suspends for
    exactly that delay, only after a target that was sent the message, and
    never after the final target; when the target ids are pairwise
    distinct it suspends after every target that was sent the message
    except the last of the sequence, so that when moreover every target is
    sent the message it suspends after each target but the last (delay 100
    and three such targets: twice, after target 1 and after target 2). *)
Theorem sendLoop_waits (d : Discord) (targetUserIds : list string) (message : string)
    (ms : Z) (Hms : (0 < ms)%Z) :
  let loop := sendLoop d targetUserIds message (Some ms) in
  (∀ k t, (k, t) ∈ waitsAfter (journal loop) →
          t = ms ∧ k ∈ sentAt (journal loop) ∧ k ≠ length targetUserIds) ∧
  (NoDup targetUserIds →
   waitsAfter (journal loop)
   = map (fun k => (k, ms))
       (filter (fun k => k ≠ length targetUserIds) (sentAt (journal loop)))) ∧
  (NoDup targetUserIds → success (results loop) = length targetUserIds →
   waitsAfter (journal loop)
   = map (fun k => (k, ms)) (seq 1 (length targetUserIds - 1))).
Proof.
  cbn zeta.
  destruct (loop_waits d targetUserIds message ms targetUserIds [] Hms)
    as (Hsub & Hlen & Hwaits); [now rewrite app_nil_r|].
  fold (sendLoop d targetUserIds message (Some ms)) in Hsub, Hlen, Hwaits.
  set (loop := sendLoop d targetUserIds message (Some ms)) in *.
  assert (∀ k, k ∈ sentAt (journal loop) → 1 ≤ k ≤ length targetUserIds) as Hrange.
  { intros k Hk. apply (sublist_subseteq _ _ Hsub), list_elem_of_In, in_seq in Hk. lia. }
  assert (NoDup targetUserIds →
          filter (fun k => targetUserIds !! (k - 1) ≠ last targetUserIds)
            (sentAt (journal loop))
          = filter (fun k => k ≠ length targetUserIds) (sentAt (journal loop))) as Hdistinct.
  { intros Hnd. apply filter_agree. intros k Hk. split.
    - intros Hne ->. now apply Hne, last_position.
    - intros Hne Heq. apply Hne. apply distinct_last_position; auto. }
  split; [|split].
  - intros k t Hin. rewrite Hwaits in Hin.
    apply list_elem_of_In, in_map_iff in Hin as (k' & [= <- <-] & Hk).
    apply list_elem_of_In, list_elem_of_filter in Hk as [Hne Hk].
    split; [done|]. split; [done|]. intros ->. now apply Hne, last_position.
  - intros Hnd. now rewrite Hwaits, Hdistinct.
  - intros Hnd Hall. rewrite Hwaits, Hdistinct by done.
    rewrite (sublist_full _ _ Hsub) by (rewrite length_seq; lia).
    now rewrite seq_without_last.
Qed.

(** Delay 100 and three distinct targets that all receive the message. *)
Lemma sendLoop_waits_witness :
  waitsAfter (journal (sendLoop Sample.everyone ["A"; "B"; "C"] "hi" (Some 100%Z)))
  = [(1, 100%Z); (2, 100%Z)].
Proof.
  assert (0 < 100)%Z as Hms by reflexivity.
  assert (NoDup ["A"; "B"; "C"]) as Hnd.
  { repeat (apply NoDup_cons; split;
            [intros Hin; repeat (apply elem_of_cons in Hin as [Hin|Hin]; [discriminate Hin|]);
             inversion Hin|]).
    apply NoDup_nil_2. }
  exact (proj2 (proj2 (sendLoop_waits Sample.everyone ["A"; "B"; "C"] "hi" 100 Hms))
           Hnd eq_refl).
Defined.

End DelayFacts.

(** * Guilds whose member list cannot be fetched *)

Section EnumerationFacts.

Lemma resolver_addGuild_rejects t guild :
  members_fetch guild = Rejects → Resolver.addGuild t guild = t.
Proof. unfold Resolver.addGuild. now intros ->. Qed.

Lemma preview_addGuild_rejects members guild :
  members_fetch guild = Rejects → Preview.addGuild members guild = members.
Proof. unfold Preview.addGuild. now intros ->. Qed.

(** C9: a guild whose member fetch rejects is skipped and the enumeration
    goes on with the guilds after it, in the select-all resolution of
    /api/dm/bulk and in the all-guilds preview of /api/guild/members: the
    outcome is the one obtained without that guild, and once the session
    has logged in the request is answered 200 with it. *)
Theorem failed_guild_is_skipped (before after : list Guild) (guild : Guild)
    (Hfail : members_fetch guild = Rejects) :
  (∀ userIds,
     Resolver.resolveTargets userIds true (before ++ guild :: after)
     = Resolver.resolveTargets userIds true (before ++ after)) ∧
  Preview.allGuildMembers (before ++ guild :: after)
  = Preview.allGuildMembers (before ++ after) ∧
  (∀ d st data token,
     guilds_cache d = before ++ guild :: after →
     Token.loginToken Token.DmBulk (Server.env_DISCORD_BOT_TOKEN st)
       (Server.requestToken data) = Some token →
     login d token = true →
     let results :=
       Dispatch.results
         (Dispatch.sendLoop d
            (Resolver.resolveTargets (Server.userIds data) (Server.selectAll data)
               (before ++ after))
            (Server.message data) (Server.delay data)) in
     fst (Server.bulkDm (Some data) d st)
     = Server.respond 200
         (Server.Tally (Dispatch.success results) (Dispatch.failed results)
            (Dispatch.failedIds results))) ∧
  (∀ d st requestToken token,
     guilds_cache d = before ++ guild :: after →
     Token.loginToken Token.GuildMembers (Server.env_DISCORD_BOT_TOKEN st) requestToken
     = Some token →
     login d token = true →
     fst (Server.guildMembers requestToken None d st)
     = Server.respond 200 (Server.Members (Preview.allGuildMembers (before ++ after)))).
Proof.
  assert (∀ userIds selectAll,
            Resolver.resolveTargets userIds selectAll (before ++ guild :: after)
            = Resolver.resolveTargets userIds selectAll (before ++ after)) as Hresolve.
  { intros userIds selectAll. unfold Resolver.resolveTargets.
    destruct selectAll; [|done].
    rewrite !foldl_app. cbn [foldl]. now rewrite resolver_addGuild_rejects. }
  assert (Preview.allGuildMembers (before ++ guild :: after)
          = Preview.allGuildMembers (before ++ after)) as Hpreview.
  { unfold Preview.allGuildMembers. rewrite !foldl_app. cbn [foldl].
    now rewrite preview_addGuild_rejects. }
  split; [intros userIds; apply Hresolve|]. split; [exact Hpreview|]. split.
  - intros d st data token Hcache Htoken Hlogin. cbn zeta.
    unfold Server.bulkDm. rewrite Htoken. unfold Server.newClient.
    cbv beta iota. rewrite Hlogin. cbn [fst]. now rewrite Hcache, Hresolve.
  - intros d st requestToken token Hcache Htoken Hlogin.
    unfold Server.guildMembers. rewrite Htoken. unfold Server.newClient.
    cbv beta iota. rewrite Hlogin. cbn [truthy fst]. now rewrite Hcache, Hpreview.
Qed.

(** Three guilds of which the second cannot be fetched. *)
Lemma failed_guild_is_skipped_witness :
  Resolver.resolveTargets ["A"] true [Sample.guildOne; Sample.guildDown; Sample.guildThree]
  = ["A"; "X"; "Y"] ∧
  Server.status
    (fst (Server.guildMembers (Some "req") None Sample.withRobot (Server.init None)))
  = 200.
Proof.
  destruct (failed_guild_is_skipped [Sample.guildOne] [Sample.guildThree] Sample.guildDown
              eq_refl) as (Hresolve & _ & _ & Hmembers).
  split.
  - etransitivity; [exact (Hresolve ["A"])|reflexivity].
  - etransitivity;
      [exact (f_equal Server.status
                (Hmembers Sample.withRobot (Server.init None) (Some "req") "req"
                   eq_refl eq_refl eq_refl))
      |reflexivity].
Defined.

End EnumerationFacts.

(** * The reply filter *)

Section ReplyFilterFacts.
Import Server.

Lemma store_accepted values st :
  messageReplies (store true values st) = messageReplies st ++ [values] ∧
  resuming (store true values st) = resuming st ++ [values].
Proof. done. Qed.

Lemma store_rejected values st : store false values st = st.
Proof. done. Qed.

(** C7: the listener registered at both sites hands a message to the
    reply store exactly when it came through a DM-based channel and its
    author is not flagged as a bot; whenever the store accepts the insert,
    the message is thus stored as a Reply if and only if it passes the
    filter; every other message leaves the state as it is.  A live,
    logged-in session with the listener registered once runs it once per
    message. *)
Theorem reply_filter (m : Message) (now : nat) (accepted : bool) (st : State) :
  let st' := onMessageCreate m now accepted st in
  let passes := channel_isDMBased m = true ∧ author_bot m = false in
  (passes → st' = store accepted (replyOf m now) st) ∧
  (accepted = true →
   messageReplies st' = messageReplies st ++ [replyOf m now] ↔ passes) ∧
  (¬ passes → st' = st) ∧
  (∀ client c, heap st !! client = Some c → destroyed c = false →
               is_Some (client_token c) → observers c = 1 →
               emitMessageCreate client m now accepted st = st').
Proof.
  cbn zeta. unfold onMessageCreate.
  split; [|split; [|split]].
  - intros [-> ->]. done.
  - intros ->. split.
    + intros Hstored.
      destruct (channel_isDMBased m), (author_bot m); cbn [andb negb] in *;
        try apply (f_equal length) in Hstored;
        try (rewrite length_app in Hstored; cbn [length] in Hstored; lia);
        done.
    + intros [-> ->]. apply store_accepted.
  - intros Hno. destruct (channel_isDMBased m), (author_bot m); cbn [andb negb]; tauto.
  - intros client c Hc Hlive Htoken Hone. unfold emitMessageCreate.
    rewrite Hc, Hlive, Hone. rewrite bool_decide_eq_true_2 by done. done.
Qed.

(** A direct message from a person is stored. *)
Lemma reply_filter_witness :
  messageReplies (onMessageCreate Sample.directMessage 7 true (init None))
  = [replyOf Sample.directMessage 7].
Proof.
  apply (proj1 (proj2 (reply_filter Sample.directMessage 7 true (init None))) eq_refl).
  split; reflexivity.
Defined.

End ReplyFilterFacts.

(** * Aborted bulk dispatches *)

Section AbortFacts.
Import Server.

Lemma alter_fresh {A} (f : A → A) (l : list A) (x : A) :
  alter f (length l) (l ++ [x]) = l ++ [f x].
Proof.
  rewrite <- (Nat.add_0_r (length l)). now rewrite alter_app_r.
Qed.

Lemma alter_fresh_at {A} (f : A → A) (l : list A) (x : A) n :
  n = length l → alter f n (l ++ [x]) = l ++ [f x].
Proof. intros ->. apply alter_fresh. Qed.

Lemma heap_destroy_fresh st fresh :
  heap (destroyClient (length (heap st)) (with_heap (heap st ++ [fresh]) st))
  = heap st ++ [{| destroyed := true; client_token := None; observers := observers fresh |}].
Proof.
  exact (alter_fresh
           (fun c => {| destroyed := true; client_token := None; observers := observers c |})
           (heap st) fresh).
Qed.

(** [destroy()] on a client whose login rejected changes nothing more. *)
Lemma destroy_after_loginRejected client st :
  destroyClient client (loginRejected client st) = destroyClient client st.
Proof.
  unfold loginRejected, destroyClient, with_heap. cbn [heap]. f_equal.
  now rewrite list_alter_alter_eq.
Qed.

(** The three ways through the handler: no client is constructed; the
    login rejects and the new client is destroyed; the loop runs and the
    client is handed off. *)
Lemma bulkDm_cases validation d st :
  let client := length (heap st) in
  let st1 := with_heap (heap st ++ [blank]) st in
  bulkDm validation d st = (respond 400 Failure, st) ∨
  (∃ data token,
     validation = Some data ∧
     Token.loginToken Token.DmBulk (env_DISCORD_BOT_TOKEN st) (requestToken data)
     = Some token ∧
     login d token = false ∧
     bulkDm validation d st = (respond 400 Failure, destroyClient client st1)) ∨
  (∃ data token,
     validation = Some data ∧
     Token.loginToken Token.DmBulk (env_DISCORD_BOT_TOKEN st) (requestToken data)
     = Some token ∧
     login d token = true ∧
     let results :=
       Dispatch.results
         (Dispatch.sendLoop d
            (Resolver.resolveTargets (userIds data) (selectAll data) (guilds_cache d))
            (message data) (delay data)) in
     bulkDm validation d st
     = (respond 200 (Tally (Dispatch.success results) (Dispatch.failed results)
                       (Dispatch.failedIds results)),
        handoff client (loggedIn client token st1))).
Proof.
  cbn zeta. unfold bulkDm.
  destruct validation as [data|]; [|now left].
  destruct (Token.loginToken _ _ _) as [token|] eqn:Htoken; [|now left].
  unfold newClient. cbv beta iota.
  destruct (login d token) eqn:Hlogin; right; [right|left]; exists data, token; done.
Qed.

(** C10: a bulk dispatch that does not answer 200 leaves the listener
    slot, the subscribers and the store as they were and touches no
    existing session: either it constructed no client at all (invalid
    body, no token), or the only change is one new client, destroyed
    (login rejected).  So the previous listening session keeps listening,
    and the slot changes only together with the 200 answer that carries
    the tally of the completed send loop. *)
Theorem bulk_abort_keeps_slot (validation : option BulkBody) (d : Discord) (st : State) :
  let response := fst (bulkDm validation d st) in
  let st' := snd (bulkDm validation d st) in
  (status response ≠ 200 →
   discordClient st' = discordClient st ∧ same_fanout st st' ∧
   (st' = st ∨
    heap st' = heap st ++ [{| destroyed := true; client_token := None; observers := 0 |}]) ∧
   (∀ c, listening st c → listening st' c)) ∧
  (∀ data token,
     validation = Some data →
     Token.loginToken Token.DmBulk (env_DISCORD_BOT_TOKEN st) (requestToken data)
     = Some token →
     login d token = false →
     status response = 400 ∧ discordClient st' = discordClient st ∧
     heap st' = heap st ++ [{| destroyed := true; client_token := None; observers := 0 |}]) ∧
  (discordClient st' ≠ discordClient st →
   ∃ data,
     validation = Some data ∧
     let results :=
       Dispatch.results
         (Dispatch.sendLoop d
            (Resolver.resolveTargets (userIds data) (selectAll data) (guilds_cache d))
            (message data) (delay data)) in
     response = respond 200 (Tally (Dispatch.success results) (Dispatch.failed results)
                               (Dispatch.failedIds results))).
Proof.
  cbn zeta.
  pose proof (heap_destroy_fresh st blank) as Hheap. cbn [blank observers] in Hheap.
  destruct (bulkDm_cases validation d st)
    as [Heq|[(data & token & Hv & Htoken & Hlogin & Heq)|
             (data & token & Hv & Htoken & Hlogin & Heq)]];
    cbn zeta in Heq; rewrite Heq; cbn [fst snd status respond].
  - split; [|split].
    + intros _. unfold same_fanout. tauto.
    + intros data token Hv Htoken Hlogin. subst validation.
      unfold bulkDm in Heq. rewrite Htoken in Heq. unfold newClient in Heq.
      cbv beta iota in Heq. rewrite Hlogin in Heq.
      apply (f_equal (fun p => length (heap (snd p)))) in Heq. cbn [snd] in Heq.
      rewrite Hheap, length_app in Heq. cbn [length] in Heq. lia.
    + congruence.
  - split; [|split].
    + intros _. split; [done|]. split; [done|]. split; [now right|].
      intros c (cl & Hc & Hlive & Hobs). exists cl. split; [|done].
      rewrite Hheap. rewrite lookup_app_l; [done|]. now apply lookup_lt_Some in Hc.
    + intros _ _ _ _ _. done.
    + cbn. congruence.
  - split; [congruence|]. split.
    + intros data' token' Hv' Htoken' Hlogin'. congruence.
    + intros _. exists data. done.
Qed.

(** A dispatch whose login rejects, after one that installed a listener. *)
Lemma bulk_abort_keeps_slot_witness :
  let st := snd (bulkDm (Some (Sample.bulkBody ["A"] false None)) Sample.everyone (init None)) in
  let rejecting :=
    {| World := unit; world0 := tt; login := fun _ => false; guilds_cache := [];
       guilds_fetch := fun _ => Rejects;
       users_fetch := fun _ w => (Rejects, w);
       createDM := fun _ w => (false, w);
       send := fun _ _ w => (false, w) |} in
  discordClient st = Some 0 ∧
  discordClient (snd (bulkDm (Some (Sample.bulkBody ["B"] false None)) rejecting st)) = Some 0 ∧
  listening (snd (bulkDm (Some (Sample.bulkBody ["B"] false None)) rejecting st)) 0.
Proof.
  cbn zeta.
  set (st := snd (bulkDm (Some (Sample.bulkBody ["A"] false None)) Sample.everyone (init None))).
  set (rejecting := Build_Discord unit tt (fun _ => false) [] (fun _ => Rejects)
                      (fun _ w => (Rejects, w)) (fun _ w => (false, w))
                      (fun _ _ w => (false, w))).
  destruct (bulk_abort_keeps_slot (Some (Sample.bulkBody ["B"] false None)) rejecting st)
    as (Habort & _).
  destruct Habort as (Hslot & _ & _ & Hlistening); [cbn; discriminate|].
  split; [reflexivity|]. split; [exact Hslot|].
  apply Hlistening. eexists. split; [reflexivity|]. split; [reflexivity|].
  split; [now eexists|cbn; lia].
Defined.

End AbortFacts.

(** * Reply ingestion and fan-out *)

Section FanoutFacts.
Import Server.

Lemma newReplies_app f1 f2 : newReplies (f1 ++ f2) = newReplies f1 ++ newReplies f2.
Proof.
  induction f1 as [|[data|data] f1 IH]; cbn [app newReplies]; [done|done|].
  now rewrite IH.
Qed.

(** The request handlers touch neither the subscribers nor the store. *)
Lemma dmSingle_same_fanout validation d st : same_fanout st (snd (dmSingle validation d st)).
Proof.
  unfold same_fanout, dmSingle, newClient.
  handler_cases; cbn; tauto.
Qed.

Lemma guildMembers_same_fanout requestToken guildId d st :
  same_fanout st (snd (guildMembers requestToken guildId d st)).
Proof.
  unfold same_fanout, guildMembers, newClient.
  handler_cases; cbn; tauto.
Qed.

Lemma guilds_same_fanout requestToken d st : same_fanout st (snd (guilds requestToken d st)).
Proof.
  unfold same_fanout, guilds, newClient.
  handler_cases; cbn; tauto.
Qed.

Lemma bulkDm_same_fanout validation d st : same_fanout st (snd (bulkDm validation d st)).
Proof.
  destruct (bulkDm_cases validation d st)
    as [Heq|[(data & token & _ & _ & _ & Heq)|(data & token & _ & _ & _ & Heq)]];
    cbn zeta in Heq; rewrite Heq; unfold same_fanout, handoff; cbn [snd];
    try destruct (discordClient _); cbn; tauto.
Qed.

Lemma startReplyListener_same_fanout token d st :
  same_fanout st (snd (startReplyListener token d st)).
Proof.
  unfold same_fanout, startReplyListener, newClient.
  handler_cases; cbn; tauto.
Qed.

Lemma fanout_inv_same st st' : same_fanout st st' → fanout_inv st → fanout_inv st'.
Proof.
  intros (Hc & Hs & Hm & Hr). unfold fanout_inv. now rewrite Hc, Hs, Hm, Hr.
Qed.

Lemma fanout_inv_init envToken : fanout_inv (init envToken).
Proof.
  split; [constructor|]. split; [done|]. intros ws s Hs. inversion Hs.
Qed.

(** An insert: the committed row joins the table and the waiting rows. *)
Lemma fanout_inv_store accepted values st :
  fanout_inv st → fanout_inv (store accepted values st).
Proof.
  destruct accepted; [|done].
  intros (Hnd & Hwait & Hsock). split; [exact Hnd|]. split.
  - cbn. now apply submseteq_skips_r.
  - intros ws s Hs. cbn in *. rewrite app_assoc. apply submseteq_skips_r. eauto.
Qed.

Lemma fanout_inv_iter n (f : State → State) st :
  (∀ st, fanout_inv st → fanout_inv (f st)) → fanout_inv st → fanout_inv (Nat.iter n f st).
Proof.
  intros Hf Hst. induction n as [|n IH]; [exact Hst|].
  rewrite Nat.iter_succ. now apply Hf.
Qed.

(** After a broadcast over a duplicate-free [clients], every member took
    the frame once (if open) and every other socket is as before. *)
Lemma broadcast_lookup frame (cl : list nat) (socks : list Socket) ws :
  NoDup cl →
  foldl (fun socks ws => deliver frame ws socks) socks cl !! ws
  = if decide (ws ∈ cl) then accept frame <$> socks !! ws else socks !! ws.
Proof.
  intros Hnd. revert socks. induction Hnd as [|a cl Ha Hnd IH]; intros socks.
  - cbn [foldl]. rewrite decide_False; [done|]. intros H. inversion H.
  - cbn [foldl]. rewrite IH. unfold deliver.
    destruct (decide (ws = a)) as [->|Hne].
    + rewrite decide_False by done. rewrite decide_True by left.
      apply list_lookup_alter_eq.
    + rewrite list_lookup_alter_ne by done.
      destruct (decide (ws ∈ cl)) as [Hin|Hout].
      * rewrite decide_True by now right. done.
      * rewrite decide_False; [done|]. intros [?|?]%elem_of_cons; done.
Qed.

Lemma accept_newReply row s :
  newReplies (received (accept (NewReply row) s)) = newReplies (received s) ∨
  newReplies (received (accept (NewReply row) s)) = newReplies (received s) ++ [row].
Proof.
  unfold accept. destruct (isOpen (readyState s)); [right|now left].
  cbn [received]. now rewrite newReplies_app.
Qed.

(** The continuation of an insert: the row leaves the waiting rows and
    each subscriber receives it at most once. *)
Lemma fanout_inv_resume k st : fanout_inv st → fanout_inv (resume k st).
Proof.
  intros (Hnd & Hwait & Hsock). unfold resume.
  destruct (resuming st !! k) as [row|] eqn:Hrow; [|done].
  pose proof (take_drop_middle _ _ _ Hrow) as Hsplit.
  assert (delete k (resuming st) ⊆+ resuming st) as Hless.
  { rewrite delete_take_drop. rewrite <- Hsplit at 3.
    apply submseteq_skips_l. now apply submseteq_cons. }
  split; [exact Hnd|]. split; [cbn; now transitivity (resuming st)|].
  intros ws s' Hs'. cbn in Hs' |- *.
  rewrite broadcast_lookup in Hs' by done.
  assert (∃ s, sockets st !! ws = Some s ∧
               (newReplies (received s') = newReplies (received s) ∨
                newReplies (received s') = newReplies (received s) ++ [row]))
    as (s & Hs & Hframes).
  { destruct (decide (ws ∈ clients st)).
    - destruct (sockets st !! ws) as [s|] eqn:Hs; [|done].
      injection Hs' as <-. exists s. split; [done|]. apply accept_newReply.
    - exists s'. split; [done|]. now left. }
  specialize (Hsock ws s Hs). destruct Hframes as [-> | ->].
  - etransitivity; [|exact Hsock]. now apply submseteq_skips_l.
  - etransitivity; [|exact Hsock]. rewrite <- app_assoc. apply submseteq_skips_l.
    rewrite delete_take_drop. rewrite <- Hsplit at 3. cbn [app].
    rewrite Permutation_middle. done.
Qed.

End FanoutFacts.

Section FanoutSteps.
Import Server.

Lemma fanout_inv_alter (f : Socket → Socket) k st :
  (∀ s, newReplies (received (f s)) = newReplies (received s)) →
  fanout_inv st → fanout_inv (with_sockets (alter f k (sockets st)) st).
Proof.
  intros Hf (Hnd & Hwait & Hsock). split; [exact Hnd|]. split; [exact Hwait|].
  intros ws s' Hs'. cbn in Hs' |- *. rewrite list_lookup_alter in Hs'.
  destruct (decide (k = ws)) as [->|Hne]; [|eauto].
  destruct (sockets st !! ws) as [s|] eqn:Hs; [|done].
  injection Hs' as <-. rewrite Hf. eauto.
Qed.

Lemma fanout_inv_clients cl st :
  NoDup cl → fanout_inv st → fanout_inv (with_clients cl st).
Proof. intros Hcl (_ & Hwait & Hsock). split; [exact Hcl|]. split; done. Qed.

Lemma accept_initialReplies replies s :
  newReplies (received (accept (InitialReplies replies) s)) = newReplies (received s).
Proof.
  unfold accept. destruct (isOpen (readyState s)); [|done].
  cbn [received]. rewrite newReplies_app. cbn. apply app_nil_r.
Qed.

Lemma setAdd_NoDup ws set : NoDup set → NoDup (setAdd ws set).
Proof.
  intros Hnd. unfold setAdd. case_bool_decide as Hin; [done|].
  apply NoDup_app. split; [done|]. split; [|apply NoDup_singleton].
  intros x Hx ->%list_elem_of_singleton. done.
Qed.

Lemma fanout_inv_wsConnection st : fanout_inv st → fanout_inv (wsConnection st).
Proof.
  intros (Hnd & Hwait & Hsock). split; [cbn; now apply setAdd_NoDup|].
  split; [exact Hwait|]. intros ws s Hs. cbn in Hs |- *.
  apply lookup_snoc_Some in Hs as [[_ Hs]|[_ <-]]; [eauto|exact Hwait].
Qed.

Lemma fanout_inv_historyAnswered ws ok st :
  fanout_inv st → fanout_inv (historyAnswered ws ok st).
Proof.
  intros Hinv. unfold historyAnswered.
  destruct (sockets st !! ws) as [s|]; [|done].
  destruct (history s); [|done|done]. now apply fanout_inv_alter.
Qed.

Lemma fanout_inv_historySettled ws st :
  fanout_inv st → fanout_inv (historySettled ws st).
Proof.
  intros Hinv. unfold historySettled.
  destruct (sockets st !! ws) as [s|]; [|done].
  destruct (history s) as [|[|replies]|]; [done| | |done].
  - now apply fanout_inv_alter.
  - unfold setHistory, deliver.
    apply (fanout_inv_alter _ ws (with_sockets _ st)); [done|].
    apply fanout_inv_alter; [|done]. intros s0. apply accept_initialReplies.
Qed.

Lemma fanout_inv_wsMessage ws data now accepted st :
  fanout_inv st → fanout_inv (wsMessage ws data now accepted st).
Proof.
  intros Hinv. unfold wsMessage.
  destruct (sockets st !! ws), data as [parsed|]; try done.
  case_bool_decide; [now apply fanout_inv_store|done].
Qed.

Lemma fanout_inv_emit client m now accepted st :
  fanout_inv st → fanout_inv (emitMessageCreate client m now accepted st).
Proof.
  intros Hinv. unfold emitMessageCreate.
  destruct (heap st !! client) as [c|]; [|done].
  destruct (destroyed c || negb (bool_decide (is_Some (client_token c)))); [done|].
  apply fanout_inv_iter; [|done]. intros st0 H0. unfold onMessageCreate.
  destruct (channel_isDMBased m && negb (author_bot m)); [now apply fanout_inv_store|done].
Qed.

Lemma fanout_inv_step st e : fanout_inv st → fanout_inv (step st e).
Proof.
  intros Hinv. destruct e; cbn [step].
  - eapply fanout_inv_same; [apply dmSingle_same_fanout|done].
  - eapply fanout_inv_same; [apply guildMembers_same_fanout|done].
  - eapply fanout_inv_same; [apply guilds_same_fanout|done].
  - eapply fanout_inv_same; [apply bulkDm_same_fanout|done].
  - eapply fanout_inv_same; [apply startReplyListener_same_fanout|done].
  - now apply fanout_inv_emit.
  - now apply fanout_inv_store.
  - now apply fanout_inv_resume.
  - now apply fanout_inv_wsConnection.
  - now apply fanout_inv_historyAnswered.
  - now apply fanout_inv_historySettled.
  - now apply fanout_inv_wsMessage.
  - now apply fanout_inv_alter.
  - unfold wsClose. apply fanout_inv_clients.
    + cbn. apply NoDup_filter. now destruct Hinv.
    + now apply fanout_inv_alter.
  - unfold wsError. apply fanout_inv_clients; [|done].
    apply NoDup_filter. now destruct Hinv.
Qed.

Lemma fanout_inv_run events st : fanout_inv st → fanout_inv (run st events).
Proof.
  revert st. induction events as [|e events IH]; intros st Hinv; [done|].
  cbn [run foldl]. apply IH. now apply fanout_inv_step.
Qed.

(** Which steps write [newReply] frames: none but the continuation of an
    insert. *)
Lemma alter_keeps_newReplies (f : Socket → Socket) (k : nat) (socks : list Socket)
    (ws : nat) :
  (∀ s, newReplies (received (f s)) = newReplies (received s)) →
  newReplies (match alter f k socks !! ws with Some s => received s | None => [] end)
  = newReplies (match socks !! ws with Some s => received s | None => [] end).
Proof.
  intros Hf. rewrite list_lookup_alter.
  destruct (decide (k = ws)) as [->|]; [|done].
  destruct (socks !! ws); cbn; auto.
Qed.

Lemma sockets_store accepted values st : sockets (store accepted values st) = sockets st.
Proof. now destruct accepted. Qed.

Lemma sockets_emit client m now accepted st :
  sockets (emitMessageCreate client m now accepted st) = sockets st.
Proof.
  unfold emitMessageCreate.
  destruct (heap st !! client) as [c|]; [|done].
  destruct (destroyed c || negb (bool_decide (is_Some (client_token c)))); [done|].
  induction (observers c) as [|n IH]; [done|].
  rewrite Nat.iter_succ. unfold onMessageCreate at 1.
  destruct (channel_isDMBased m && negb (author_bot m)); [|done].
  now rewrite sockets_store.
Qed.

Lemma step_keeps_newReplies st e ws :
  (∀ k, e ≠ InsertResumed k) →
  newReplies (framesOf (step st e) ws) = newReplies (framesOf st ws).
Proof.
  intros He. unfold framesOf.
  destruct e as [v d|rt gid d|rt d|v d|tok d|c m now acc|b now acc|k| |w ok|w
                |w data now acc|w|w|w]; cbn [step].
  - now destruct (dmSingle_same_fanout v d st) as (_ & -> & _).
  - now destruct (guildMembers_same_fanout rt gid d st) as (_ & -> & _).
  - now destruct (guilds_same_fanout rt d st) as (_ & -> & _).
  - now destruct (bulkDm_same_fanout v d st) as (_ & -> & _).
  - now destruct (startReplyListener_same_fanout tok d st) as (_ & -> & _).
  - now rewrite sockets_emit.
  - unfold postReplies. now rewrite sockets_store.
  - now destruct (He k).
  - cbn. destruct (decide (ws < length (sockets st))) as [Hlt|Hge].
    + now rewrite lookup_app_l.
    + rewrite (proj2 (lookup_ge_None (sockets st) ws)) by lia.
      destruct (decide (ws = length (sockets st))) as [->|Hne].
      * now rewrite list_lookup_middle.
      * rewrite (proj2 (lookup_ge_None _ ws)); [done|].
        rewrite length_app. cbn. lia.
  - unfold historyAnswered.
    destruct (sockets st !! w) as [s|]; [|done].
    destruct (history s); [|done|done]. cbn. now apply alter_keeps_newReplies.
  - unfold historySettled.
    destruct (sockets st !! w) as [s|]; [|done].
    destruct (history s) as [|[|replies]|]; [done| | |done]; cbn.
    + now apply alter_keeps_newReplies.
    + rewrite alter_keeps_newReplies by done. unfold deliver.
      apply alter_keeps_newReplies. intros s0. apply accept_initialReplies.
  - unfold wsMessage. destruct (sockets st !! w), data as [parsed|]; try done.
    case_bool_decide; [|done]. now rewrite sockets_store.
  - cbn. now apply alter_keeps_newReplies.
  - cbn. now apply alter_keeps_newReplies.
  - done.
Qed.

(** C3: in every state the server can reach, the rows each subscriber has
    been sent as [newReply] are rows of the table, each sent at most as
    often as it was inserted; a rejected insert changes nothing, on any of
    the three inbound paths; no step other than the continuation of a
    committed insert writes a [newReply] frame; and that continuation
    writes to each subscriber at most one frame, carrying a row that the
    table already holds. *)
Theorem newReply_after_insert (envToken : option string) (events : list Event) :
  let st := run (init envToken) events in
  (∀ ws, newReplies (framesOf st ws) ⊆+ messageReplies st) ∧
  (∀ m b ws data now,
     onMessageCreate m now false st = st ∧
     postReplies b now false st = st ∧
     wsMessage ws data now false st = st) ∧
  (∀ e ws, (∀ k, e ≠ InsertResumed k) →
           newReplies (framesOf (step st e) ws) = newReplies (framesOf st ws)) ∧
  (∀ k ws,
     framesOf (resume k st) ws = framesOf st ws ∨
     ∃ row, resuming st !! k = Some row ∧ row ∈ messageReplies st ∧
            framesOf (resume k st) ws = framesOf st ws ++ [NewReply row]).
Proof.
  cbn zeta.
  pose proof (fanout_inv_run events _ (fanout_inv_init envToken)) as Hinv.
  set (st := run (init envToken) events) in *.
  destruct Hinv as (Hnd & Hwait & Hsock).
  split; [|split; [|split]].
  - intros ws. unfold framesOf.
    destruct (sockets st !! ws) as [s|] eqn:Hs; [|apply submseteq_nil_l].
    etransitivity; [|exact (Hsock ws s Hs)]. now apply submseteq_inserts_r.
  - intros m b ws data now. split; [|split].
    + unfold onMessageCreate. now destruct (_ && _).
    + done.
    + unfold wsMessage. destruct (sockets st !! ws), data; try done.
      now case_bool_decide.
  - intros e ws He. now apply step_keeps_newReplies.
  - intros k ws. unfold resume, framesOf.
    destruct (resuming st !! k) as [row|] eqn:Hrow; [|now left].
    cbn. rewrite broadcast_lookup by done.
    destruct (decide (ws ∈ clients st)); [|now left].
    destruct (sockets st !! ws) as [s|]; [|now left].
    cbn. unfold accept. destruct (isOpen (readyState s)); [|now left].
    right. exists row. split; [done|]. split; [|done].
    apply list_elem_of_lookup_2 in Hrow. exact (elem_of_submseteq _ _ _ Hrow Hwait).
Qed.

End FanoutSteps.

(** * The listener slot *)

Section SlotFacts.
Import Server.

Lemma retire_length previous h : length (retire previous h) = length h.
Proof. destruct previous; [apply length_alter|done]. Qed.

Lemma dmSingle_quiet validation d st : quiet st (snd (dmSingle validation d st)).
Proof.
  unfold quiet, dmSingle, newClient.
  handler_cases; try (split; [done|now left]);
    unfold destroyClient, loggedIn, with_heap; cbn [heap discordClient];
    rewrite !alter_fresh; (split; [done|right; eexists; split; [|done]; done]).
Qed.

Lemma guildMembers_quiet requestToken guildId d st :
  quiet st (snd (guildMembers requestToken guildId d st)).
Proof.
  unfold quiet, guildMembers, newClient.
  handler_cases; try (split; [done|now left]);
    unfold destroyClient, loggedIn, with_heap; cbn [heap discordClient];
    rewrite !alter_fresh; (split; [done|right; eexists; split; [|done]; done]).
Qed.

Lemma guilds_quiet requestToken d st : quiet st (snd (guilds requestToken d st)).
Proof.
  unfold quiet, guilds, newClient.
  handler_cases; try (split; [done|now left]);
    unfold destroyClient, loggedIn, with_heap; cbn [heap discordClient];
    rewrite !alter_fresh; (split; [done|right; eexists; split; [|done]; done]).
Qed.

(** A bulk dispatch that answers 200 hands its client over; any other is
    quiet. *)
Lemma bulkDm_sessions validation d st :
  (∀ c, discordClient st = Some c → c < length (heap st)) →
  (status (fst (bulkDm validation d st)) ≠ 200 ∧ quiet st (snd (bulkDm validation d st))) ∨
  (status (fst (bulkDm validation d st)) = 200 ∧
   handed_over true st (snd (bulkDm validation d st))).
Proof.
  intros Hvalid.
  destruct (bulkDm_cases validation d st)
    as [Heq|[(data & token & _ & _ & _ & Heq)|(data & token & _ & _ & _ & Heq)]];
    cbn zeta in Heq; rewrite Heq; cbn [fst snd status respond].
  - left. split; [done|]. split; [done|now left].
  - left. split; [done|]. split; [done|]. right.
    rewrite heap_destroy_fresh. eexists. split; [|done]. done.
  - right. split; [done|]. unfold handed_over, handoff.
    unfold onMessageCreateRegistered, loggedIn, with_discordClient, with_heap.
    cbn [heap discordClient]. split; [done|].
    exists {| destroyed := false; client_token := Some token; observers := 1 |}.
    split; [split; [done|now eexists]|]. split; [done|].
    destruct (discordClient st) as [previous|] eqn:Hslot.
    + unfold destroyClient, with_heap. cbn [heap discordClient retire].
      rewrite alter_fresh. rewrite alter_app_l by (apply Hvalid; reflexivity).
      now rewrite alter_fresh_at by (now rewrite length_alter).
    + cbn [heap retire]. now rewrite !alter_fresh.
Qed.

(** /api/startReplyListener answers 400 and changes nothing, or hands the
    slot over to its new client: logged in when the login resolves (200),
    destroyed when it rejects (500). *)
Lemma startReplyListener_sessions token d st :
  (status (fst (startReplyListener token d st)) = 400 ∧
   snd (startReplyListener token d st) = st) ∨
  (status (fst (startReplyListener token d st)) = 200 ∧
   handed_over true st (snd (startReplyListener token d st))) ∨
  (status (fst (startReplyListener token d st)) = 500 ∧
   handed_over false st (snd (startReplyListener token d st))).
Proof.
  unfold startReplyListener.
  destruct (Token.loginToken _ _ _) as [tok|]; [right|now left].
  unfold newClient. cbv beta iota.
  destruct (login d tok); [left|right];
    destruct (discordClient st) as [previous|] eqn:Hslot;
    cbn [fst snd status respond]; (split; [done|]);
    unfold handed_over, loginRejected, onMessageCreateRegistered, loggedIn, destroyClient,
      with_discordClient, with_heap;
    cbn [heap discordClient retire]; rewrite Hslot; cbn [retire];
    rewrite !alter_fresh, ?length_alter; (split; [done|]);
    eexists; (split; [|split; [|reflexivity]]);
    first [done | split; [done|now eexists]].
Qed.


End SlotFacts.

Section SlotSteps.
Import Server.

Lemma slot_inv_init envToken : slot_inv (init envToken).
Proof.
  split; [|discriminate]. intros c (cl & Hc & _). inversion Hc.
Qed.

Lemma slot_inv_same st st' : same_sessions st st' → slot_inv st → slot_inv st'.
Proof.
  intros [Hheap Hslot]. unfold slot_inv, listening. now rewrite Hheap, Hslot.
Qed.

Lemma slot_inv_quiet st st' : slot_inv st → quiet st st' → slot_inv st'.
Proof.
  intros [Hlisten Hvalid] [Hslot [Hheap|(dead & Hdead & Hheap)]].
  - apply (slot_inv_same st); [done|]. done.
  - split.
    + intros c (cl & Hc & Hlive & Hobs). rewrite Hslot. apply Hlisten.
      rewrite Hheap in Hc.
      apply lookup_snoc_Some in Hc as [[_ Hc]|[_ <-]]; [|congruence].
      exists cl. done.
    + intros c Hc. rewrite Hslot in Hc. rewrite Hheap, length_app.
      apply Hvalid in Hc. lia.
Qed.

(** After a hand-over, whatever the outcome of the login, no session
    other than the new one listens and the former holder is destroyed. *)
Lemma handed_over_others attached st st' :
  slot_inv st → handed_over attached st st' →
  (∀ c, listening st' c → c = length (heap st)) ∧
  (∀ previous, discordClient st = Some previous → isDestroyed st' previous).
Proof.
  intros [Hlisten Hvalid] (Hslot & new & Hnew & Hone & Hheap). split.
  - intros c (cl & Hc & Hcl & Hobs). rewrite Hheap in Hc.
    apply lookup_snoc_Some in Hc as [[Hlt Hc]|[Hc _]];
      [|now rewrite retire_length in Hc].
    exfalso. destruct (discordClient st) as [previous|] eqn:Hprev; cbn [retire] in Hc.
    + rewrite list_lookup_alter in Hc. destruct (decide (previous = c)) as [->|Hne].
      * destruct (heap st !! c); [|done]. injection Hc as <-. done.
      * assert (listening st c) as Hl by (exists cl; done).
        apply Hlisten in Hl. congruence.
    + assert (listening st c) as Hl by (exists cl; done).
      apply Hlisten in Hl. congruence.
  - intros previous Hprev. unfold isDestroyed. rewrite Hheap, Hprev. cbn [retire].
    destruct (lookup_lt_is_Some_2 (heap st) previous (Hvalid _ Hprev)) as [cl Hcl].
    eexists. split.
    + rewrite lookup_app_l by (rewrite length_alter; now apply Hvalid).
      rewrite list_lookup_alter_eq, Hcl. reflexivity.
    + reflexivity.
Qed.

Lemma handed_over_slot_inv attached st st' :
  slot_inv st → handed_over attached st st' → slot_inv st'.
Proof.
  intros Hinv Hover.
  destruct (handed_over_others attached st st' Hinv Hover) as [Honly _].
  destruct Hover as (Hslot & new & _ & _ & Hheap). split.
  - intros c Hc. apply Honly in Hc. congruence.
  - intros c. rewrite Hslot, Hheap, length_app, retire_length. intros [= <-]. cbn. lia.
Qed.



Lemma heap_store accepted values st :
  heap (store accepted values st) = heap st ∧
  discordClient (store accepted values st) = discordClient st.
Proof. now destruct accepted. Qed.

Lemma emit_same_sessions client m now accepted st :
  same_sessions st (emitMessageCreate client m now accepted st).
Proof.
  unfold same_sessions, emitMessageCreate.
  destruct (heap st !! client) as [c|]; [|done].
  destruct (destroyed c || negb (bool_decide (is_Some (client_token c)))); [done|].
  induction (observers c) as [|n IH]; [done|].
  rewrite Nat.iter_succ. unfold onMessageCreate at 1 3.
  destruct (channel_isDMBased m && negb (author_bot m)); [|done].
  destruct (heap_store accepted (replyOf m now)
              (Nat.iter n (onMessageCreate m now accepted) st)) as [-> ->]. done.
Qed.


(** How an event changes the sessions: not at all, quietly, or by a
    hand-over. *)
Lemma step_sessions st e :
  slot_inv st →
  same_sessions st (step st e) ∨ quiet st (step st e) ∨
  ∃ attached, handed_over attached st (step st e).
Proof.
  intros Hinv.
  destruct e as [v d|rt gid d|rt d|v d|tok d|c m now acc|b now acc|k| |w ok|w
                |w data now acc|w|w|w]; cbn [step].
  - right. left. apply dmSingle_quiet.
  - right. left. apply guildMembers_quiet.
  - right. left. apply guilds_quiet.
  - right. destruct (bulkDm_sessions v d st (proj2 Hinv)) as [[_ Hq]|[_ Hp]];
      [now left|right; now exists true].
  - destruct (startReplyListener_sessions tok d st) as [[_ ->]|[[_ Hp]|[_ Hp]]].
    + now left.
    + right. right. now exists true.
    + right. right. now exists false.
  - left. apply emit_same_sessions.
  - left. apply heap_store.
  - left. unfold resume. now destruct (resuming st !! k).
  - now left.
  - left. unfold historyAnswered.
    destruct (sockets st !! w) as [s|]; [|done]. now destruct (history s).
  - left. unfold historySettled.
    destruct (sockets st !! w) as [s|]; [|done]. now destruct (history s) as [|[|]|].
  - left. unfold wsMessage.
    destruct (sockets st !! w), data; try done.
    case_bool_decide; [apply heap_store|done].
  - now left.
  - now left.
  - now left.
Qed.

Lemma slot_inv_step st e : slot_inv st → slot_inv (step st e).
Proof.
  intros Hinv.
  destruct (step_sessions st e Hinv) as [Hsame|[Hquiet|[attached Hover]]].
  - now apply (slot_inv_same st).
  - now apply (slot_inv_quiet st).
  - now apply (handed_over_slot_inv attached st).
Qed.

Lemma slot_inv_run events st : slot_inv st → slot_inv (run st events).
Proof.
  revert st. induction events as [|e events IH]; intros st Hinv; [done|].
  cbn [run foldl]. apply IH. now apply slot_inv_step.
Qed.




End SlotSteps.

(** * The history sent to a new subscriber *)

Section HistoryFacts.
Import Server.

(** The run [Sample.lateHistory]: one row stored, sent once. *)
Lemma newReply_after_insert_witness :
  newReplies (framesOf (run (init None) Sample.lateHistory) 0)
  ⊆+ messageReplies (run (init None) Sample.lateHistory) ∧
  newReplies (framesOf (run (init None) Sample.lateHistory) 0) = [valuesOf Sample.hello 5].
Proof.
  split; [|reflexivity].
  exact (proj1 (newReply_after_insert None Sample.lateHistory) 0).
Defined.

(** C4 does not hold of the handler: the socket joins [clients] before
    its history is sent.  A reply stored before the connection, whose
    handler resumes after it, reaches the new subscriber as [newReply]
    ahead of [initialReplies], which then repeats it; and when the history
    query rejects, no [initialReplies] is sent at all and the first frame
    of the subscriber is the next [newReply]. *)
Example newReply_before_initialReplies :
  framesOf (run (init None) Sample.lateHistory) 0
  = [NewReply (valuesOf Sample.hello 5); InitialReplies [valuesOf Sample.hello 5]] ∧
  framesOf (run (init None) Sample.lostHistory) 0
  = [NewReply (valuesOf Sample.hello 5)].
Proof. split; reflexivity. Qed.

End HistoryFacts.

(** * Further properties of the handlers *)

(** * More on the send loop *)

Section LoopOrderFacts.
Import Dispatch.

Lemma fetchedIds_app j1 j2 : fetchedIds (j1 ++ j2) = fetchedIds j1 ++ fetchedIds j2.
Proof.
  induction j1 as [|[userId outcome|userId|ms] j1 IH]; cbn [app fetchedIds]; [done| |done|done].
  now rewrite IH.
Qed.

Lemma sentIds_app j1 j2 : sentIds (j1 ++ j2) = sentIds j1 ++ sentIds j2.
Proof.
  induction j1 as [|[userId outcome|userId|ms] j1 IH]; cbn [app sentIds]; [done|done| |done].
  now rewrite IH.
Qed.

Lemma delay_tail_ids delay userId targetUserIds :
  let tail := match delayFor delay userId targetUserIds with
              | Some ms => [ASleep ms]
              | None => []
              end in
  fetchedIds tail = [] ∧ sentIds tail = [].
Proof. cbn zeta. now destruct (delayFor delay userId targetUserIds). Qed.

(** The loop over any list: it resolves the ids of the list in order, and
    the ids it sent to and the ids it recorded as failed are subsequences
    of the list. *)
Lemma loop_order d targetUserIds message delay (l : list string) :
  let s := foldl (sendOne d targetUserIds message delay) (start d) l in
  fetchedIds (journal s) = l ∧
  sentIds (journal s) `sublist_of` l ∧
  failedIds (results s) `sublist_of` l ∧
  length (sentIds (journal s)) = success (results s).
Proof.
  induction l as [|userId l IH] using rev_ind.
  - cbn. split; [done|]. split; [constructor|]. split; [constructor|done].
  - rewrite foldl_snoc.
    set (s := foldl (sendOne d targetUserIds message delay) (start d) l) in *.
    cbn zeta in IH. destruct IH as (Hfetched & Hsent & Hfailed & Hcount).
    destruct (delay_tail_ids delay userId targetUserIds) as [Htf Hts].
    destruct (sendOne_cases d targetUserIds message delay s userId)
      as (outcome & [(Hj & _ & Hr)|[(Hj & _ & Hr)|(Hj & _ & Hr)]]);
      cbn zeta; rewrite Hj, Hr, !fetchedIds_app, !sentIds_app, ?Htf, ?Hts;
      cbn [fetchedIds sentIds recordFailure recordSuccess failedIds success];
      rewrite ?app_nil_r, Hfetched.
    + split; [done|]. split; [now apply sublist_inserts_r|].
      split; [now apply sublist_app|done].
    + split; [done|]. split; [now apply sublist_inserts_r|].
      split; [now apply sublist_inserts_r|done].
    + split; [done|]. split; [now apply sublist_app|].
      split; [now apply sublist_inserts_r|].
      rewrite length_app. cbn [length]. lia.
Qed.

(** X1: the send loop resolves every target exactly once, in the order of
    the sequence; the ids it sent the message to and the ids it reports in
    [failedIds] are subsequences of the targets (the order of the targets
    is kept, nothing is invented); and the success count is the number of
    messages sent. *)
Theorem sendLoop_order (d : Discord) (targetUserIds : list string) (message : string)
    (delay : option Z) :
  let loop := sendLoop d targetUserIds message delay in
  fetchedIds (journal loop) = targetUserIds ∧
  sentIds (journal loop) `sublist_of` targetUserIds ∧
  failedIds (results loop) `sublist_of` targetUserIds ∧
  length (sentIds (journal loop)) = success (results loop).
Proof. apply loop_order. Qed.

(** What one iteration appends, with the outcome that lets it send. *)
Lemma sendOne_block d targetUserIds message delay (s : Loop (World d)) userId :
  ∃ outcome,
    journal (sendOne d targetUserIds message delay s userId)
    = journal s ++ [AFetch userId outcome] ∨
    ∃ u tail,
      outcome = Resolves (Some u) ∧ user_bot u = false ∧
      (∀ a, a ∈ tail → ∃ ms, a = ASleep ms) ∧
      journal (sendOne d targetUserIds message delay s userId)
      = journal s ++ AFetch userId outcome :: ASent userId :: tail.
Proof.
  unfold sendOne.
  destruct (users_fetch d userId (world s)) as [outcome w1]. exists outcome.
  destruct outcome as [|[[[]]|]]; cbn [user_bot]; [now left|now left| |now left].
  destruct (createDM d userId w1) as [[] w2]; [|now left].
  destruct (send d userId message w2) as [[] w3]; [|now left].
  right. eexists _, _. split; [done|]. split; [done|].
  cbn [journal]. rewrite <- app_assoc. split; [|done].
  intros a Ha. destruct (delayFor delay userId targetUserIds) as [ms|].
  - apply list_elem_of_singleton in Ha as ->. now exists ms.
  - inversion Ha.
Qed.

Lemma loop_guarded d targetUserIds message delay (l : list string) :
  let j := journal (foldl (sendOne d targetUserIds message delay) (start d) l) in
  (∀ userId, j !! 0 ≠ Some (ASent userId)) ∧
  ∀ i userId, j !! S i = Some (ASent userId) →
              ∃ u, j !! i = Some (AFetch userId (Resolves (Some u))) ∧ user_bot u = false.
Proof.
  induction l as [|x l IH] using rev_ind.
  - cbn. split; [done|]. intros i userId H. inversion H.
  - rewrite foldl_snoc.
    set (s := foldl (sendOne d targetUserIds message delay) (start d) l) in *.
    cbn zeta in IH |- *. destruct IH as [Hhead Hstep].
    assert (∀ block first,
              (∀ i userId, (first :: block) !! S i = Some (ASent userId) →
                           ∃ u, i = 0 ∧ first = AFetch userId (Resolves (Some u)) ∧
                                user_bot u = false) →
              (∀ userId, first ≠ ASent userId) →
              (∀ userId, (journal s ++ first :: block) !! 0 ≠ Some (ASent userId)) ∧
              ∀ i userId, (journal s ++ first :: block) !! S i = Some (ASent userId) →
                          ∃ u, (journal s ++ first :: block) !! i
                               = Some (AFetch userId (Resolves (Some u))) ∧
                               user_bot u = false) as Hgrow.
    { intros block first Hblock Hfirst. split.
      - intros userId. destruct (journal s) as [|a j'] eqn:Hj.
        + cbn. intros [= ->]. now apply (Hfirst userId).
        + apply Hhead.
      - intros i userId Hi.
        destruct (decide (S i < length (journal s))) as [Hlt|Hge].
        + rewrite lookup_app_l in Hi by done. rewrite lookup_app_l by lia. now apply Hstep.
        + rewrite lookup_app_r in Hi by lia.
          destruct (decide (S i = length (journal s))) as [Heq|Hne].
          * rewrite Heq, Nat.sub_diag in Hi. cbn in Hi. injection Hi as ->.
            now destruct (Hfirst userId).
          * replace (S i - length (journal s)) with (S (i - length (journal s))) in Hi by lia.
            destruct (Hblock _ _ Hi) as (u & Hzero & -> & Hbot). exists u.
            split; [|done]. rewrite lookup_app_r by lia. now rewrite Hzero. }
    destruct (sendOne_block d targetUserIds message delay s x)
      as (outcome & [->|(u & tail & -> & Hbot & Htail & ->)]).
    + apply Hgrow; [|done]. intros i userId H. inversion H.
    + apply Hgrow; [|done]. intros [|i] userId Hi; cbn in Hi.
      * injection Hi as <-. exists u. done.
      * apply list_elem_of_lookup_2, Htail in Hi as [ms Hms]. discriminate Hms.
Qed.

(** X2: the send loop never sends the message to a user it resolved to a
    bot, nor to an id it could not resolve: every message sent comes
    directly after the fetch of that same id, which resolved to a user not
    flagged as a bot. *)
Theorem sendLoop_never_to_bots (d : Discord) (targetUserIds : list string)
    (message : string) (delay : option Z) :
  let j := journal (sendLoop d targetUserIds message delay) in
  (∀ userId, j !! 0 ≠ Some (ASent userId)) ∧
  ∀ i userId, j !! S i = Some (ASent userId) →
              ∃ u, j !! i = Some (AFetch userId (Resolves (Some u))) ∧ user_bot u = false.
Proof. apply loop_guarded. Qed.

(** A bot among the targets, on a platform that would deliver to it. *)
Lemma sendLoop_never_to_bots_witness :
  sentIds (journal (sendLoop Sample.withRobot ["R"; "A"] "hi" None)) = ["A"] ∧
  ∃ u, journal (sendLoop Sample.withRobot ["R"; "A"] "hi" None) !! 1
       = Some (AFetch "A" (Resolves (Some u))) ∧ user_bot u = false.
Proof.
  split; [reflexivity|].
  exact (proj2 (sendLoop_never_to_bots Sample.withRobot ["R"; "A"] "hi" None) 1 "A" eq_refl).
Defined.

Lemma loop_no_delay d targetUserIds message delay (l : list string) :
  (∀ userId, delayFor delay userId targetUserIds = None) →
  waitsAfter (journal (foldl (sendOne d targetUserIds message delay) (start d) l)) = [].
Proof.
  intros Hnone. induction l as [|x l IH] using rev_ind; [done|].
  rewrite foldl_snoc.
  set (s := foldl (sendOne d targetUserIds message delay) (start d) l) in *.
  unfold waitsAfter in *.
  destruct (sendOne_cases d targetUserIds message delay s x)
    as (outcome & [(Hj & _)|[(Hj & _)|(Hj & _)]]);
    rewrite Hj, waitsFrom_app, IH, ?Hnone; done.
Qed.

(** X3: without a delay, or with a delay of zero or less, the loop never
    suspends. *)
Theorem sendLoop_no_delay (d : Discord) (targetUserIds : list string) (message : string)
    (delay : option Z)
    (Hoff : delay = None ∨ ∃ ms, delay = Some ms ∧ (ms ≤ 0)%Z) :
  waitsAfter (journal (sendLoop d targetUserIds message delay)) = [].
Proof.
  apply loop_no_delay. intros userId. unfold delayFor.
  destruct Hoff as [->|(ms & -> & Hms)]; [done|].
  now rewrite (proj2 (Z.ltb_ge 0 ms) Hms).
Qed.

Lemma sendLoop_no_delay_witness :
  waitsAfter (journal (sendLoop Sample.everyone ["A"; "B"; "C"] "hi" (Some 0%Z))) = [].
Proof.
  apply sendLoop_no_delay. right. exists 0%Z. split; [reflexivity|]. reflexivity.
Defined.

(** X4: with a delay greater than zero the loop suspends, for that delay,
    after a target exactly when the message was sent to it and its id
    differs from the id in the last position of the sequence: the test
    compares ids, so an earlier target that carries the same id as the last
    one is followed by no wait either. *)
Theorem sendLoop_wait_rule (d : Discord) (targetUserIds : list string) (message : string)
    (ms : Z) (Hms : (0 < ms)%Z) :
  let j := journal (sendLoop d targetUserIds message (Some ms)) in
  ∀ k t, (k, t) ∈ waitsAfter j ↔
         t = ms ∧ k ∈ sentAt j ∧ targetUserIds !! (k - 1) ≠ last targetUserIds.
Proof.
  cbn zeta. intros k t.
  destruct (loop_waits d targetUserIds message ms targetUserIds [] Hms)
    as (_ & _ & Hwaits); [now rewrite app_nil_r|].
  fold (sendLoop d targetUserIds message (Some ms)) in Hwaits. rewrite Hwaits.
  rewrite list_elem_of_In, in_map_iff. split.
  - intros (k' & [= <- <-] & Hk).
    apply list_elem_of_In, list_elem_of_filter in Hk as [Hne Hk]. done.
  - intros (-> & Hk & Hne). exists k. split; [done|].
    apply list_elem_of_In, list_elem_of_filter. done.
Qed.

(** The last id also in first position: the message is sent to position 1
    and no wait follows it. *)
Lemma sendLoop_wait_rule_witness :
  1 ∈ sentAt (journal (sendLoop Sample.everyone ["A"; "B"; "A"] "hi" (Some 100%Z))) ∧
  ¬ (1, 100%Z) ∈ waitsAfter (journal (sendLoop Sample.everyone ["A"; "B"; "A"] "hi"
                                         (Some 100%Z))).
Proof.
  split; [left|].
  intros Hin.
  apply (sendLoop_wait_rule Sample.everyone ["A"; "B"; "A"] "hi" 100 eq_refl) in Hin
    as (_ & _ & Hne).
  now apply Hne.
Defined.

End LoopOrderFacts.

(** * More on recipient resolution and credentials *)

Section ResolverMoreFacts.
Import Resolver.

Lemma addMember_keeps t m x : x ∈ t → x ∈ addMember t m.
Proof.
  intros Hx. unfold addMember. destruct (_ && _); [|done].
  apply elem_of_app. now left.
Qed.

Lemma addMember_adds t m : member_bot m = false → member_id m ∈ addMember t m.
Proof.
  intros Hbot. unfold addMember, includes. rewrite Hbot. cbn [negb andb].
  case_bool_decide as Hin; cbn [negb]; [done|].
  apply elem_of_app. right. left.
Qed.

Lemma foldl_addMember_keeps cache t x : x ∈ t → x ∈ foldl addMember t cache.
Proof.
  revert t. induction cache as [|m cache IH]; intros t Hx; [done|].
  cbn [foldl]. now apply IH, addMember_keeps.
Qed.

Lemma foldl_addMember_adds cache t m :
  m ∈ cache → member_bot m = false → member_id m ∈ foldl addMember t cache.
Proof.
  revert t. induction cache as [|m' cache IH]; intros t Hm Hbot; [inversion Hm|].
  cbn [foldl]. apply elem_of_cons in Hm as [->|Hm].
  - now apply foldl_addMember_keeps, addMember_adds.
  - now apply IH.
Qed.

Lemma addGuild_keeps t guild x : x ∈ t → x ∈ addGuild t guild.
Proof.
  intros Hx. unfold addGuild. destruct (members_fetch guild); [done|].
  now apply foldl_addMember_keeps.
Qed.

Lemma foldl_addGuild_keeps guildArray t x : x ∈ t → x ∈ foldl addGuild t guildArray.
Proof.
  revert t. induction guildArray as [|g guildArray IH]; intros t Hx; [done|].
  cbn [foldl]. now apply IH, addGuild_keeps.
Qed.

Lemma foldl_addGuild_adds guildArray t x :
  enumerated guildArray x → x ∈ foldl addGuild t guildArray.
Proof.
  revert t. induction guildArray as [|g guildArray IH];
    intros t (guild & cache & m & Hin & Hfetch & Hm & <- & Hbot); [inversion Hin|].
  cbn [foldl]. apply elem_of_cons in Hin as [->|Hin].
  - apply foldl_addGuild_keeps. unfold addGuild. rewrite Hfetch.
    now apply foldl_addMember_adds.
  - apply IH. exists guild, cache, m. done.
Qed.

(** A list that already holds every enumerated id is left as it is. *)
Lemma foldl_addMember_full cache t :
  (∀ m, m ∈ cache → member_bot m = false → member_id m ∈ t) →
  foldl addMember t cache = t.
Proof.
  induction cache as [|m cache IH]; intros Hfull; [done|].
  cbn [foldl].
  assert (addMember t m = t) as ->.
  { unfold addMember, includes. destruct (member_bot m) eqn:Hbot; [done|].
    rewrite bool_decide_eq_true_2; [done|]. apply Hfull; [left|done]. }
  apply IH. intros m' Hm'. apply Hfull. now right.
Qed.

Lemma foldl_addGuild_full guildArray t :
  (∀ x, enumerated guildArray x → x ∈ t) → foldl addGuild t guildArray = t.
Proof.
  induction guildArray as [|g guildArray IH]; intros Hfull; [done|].
  cbn [foldl].
  assert (addGuild t g = t) as ->.
  { unfold addGuild. destruct (members_fetch g) as [|cache] eqn:Hfetch; [done|].
    apply foldl_addMember_full. intros m Hm Hbot. apply Hfull.
    exists g, cache, m. split; [left|done]. }
  apply IH. intros x (guild & cache & m & Hin & H). apply Hfull.
  exists guild, cache, m. split; [now right|done].
Qed.

(** X5: with select-all, every member not flagged as a bot of every guild
    whose member fetch resolved is among the targets; without it the guilds
    are not consulted; and resolving again from the resolved targets adds
    nothing. *)
Theorem resolveTargets_complete (userIds : list string) (selectAll : bool)
    (guildArray : list Guild) :
  (selectAll = true →
   ∀ x, enumerated guildArray x → x ∈ resolveTargets userIds selectAll guildArray) ∧
  (selectAll = false → resolveTargets userIds selectAll guildArray = userIds) ∧
  resolveTargets (resolveTargets userIds selectAll guildArray) selectAll guildArray
  = resolveTargets userIds selectAll guildArray.
Proof.
  unfold resolveTargets. destruct selectAll.
  - split; [|split; [discriminate|]].
    + intros _ x Hx. now apply foldl_addGuild_adds.
    + apply foldl_addGuild_full. intros x Hx. now apply foldl_addGuild_adds.
  - split; [discriminate|done].
Qed.

(** Select-all over three guilds of which one cannot be fetched. *)
Lemma resolveTargets_complete_witness :
  "Y" ∈ resolveTargets ["A"] true (guilds_cache Sample.withRobot).
Proof.
  apply (proj1 (resolveTargets_complete ["A"] true (guilds_cache Sample.withRobot)) eq_refl).
  exists Sample.guildThree, [Sample.member "X" false; Sample.member "Y" false],
    (Sample.member "Y" false).
  split; [right; right; left|]. split; [reflexivity|]. split; [right; left|done].
Defined.

End ResolverMoreFacts.

Section TokenMoreFacts.
Import Token Server.

Lemma truthy_Some t : truthy t = true → ∃ s, t = Some s ∧ s ≠ EmptyString.
Proof.
  destruct t as [s|]; [|discriminate]. cbn. case_bool_decide; [discriminate|].
  intros _. now exists s.
Qed.

(** X6: no handler ever logs in with an empty token: the token handed to
    [client.login] is not the empty string and is the configured one or the
    one of the request; an empty configured or request token counts as
    absent. *)
Theorem loginToken_nonempty (e : Endpoint) (envToken requestToken : option string) :
  (∀ t, loginToken e envToken requestToken = Some t →
        t ≠ EmptyString ∧ (envToken = Some t ∨ requestToken = Some t)) ∧
  loginToken e (Some EmptyString) requestToken = loginToken e None requestToken ∧
  loginToken e envToken (Some EmptyString) = loginToken e envToken None.
Proof.
  split; [|split].
  - intros t. unfold loginToken.
    destruct (truthy (selectToken e envToken requestToken)) eqn:Htruthy; [|discriminate].
    intros Heq. destruct (truthy_Some _ Htruthy) as (s & Hs & Hne).
    rewrite Hs in Heq. injection Heq as <-. split; [done|].
    revert Hs. unfold selectToken, or_else.
    destruct e, (truthy envToken); auto.
  - now destruct e.
  - unfold loginToken, selectToken, or_else.
    destruct e, (truthy envToken) eqn:Henv; try done; now rewrite ?Henv.
Qed.

(** X7: when a token is configured, the four handlers that read the
    configuration answer and act the same whatever token the request
    carries. *)
Theorem configured_token_overrides (d : Discord) (st : State)
    (Henv : truthy (env_DISCORD_BOT_TOKEN st) = true) :
  (∀ t1 t2 userId message,
     dmSingle (Some {| single_requestToken := t1; single_userId := userId;
                       single_message := message |}) d st
     = dmSingle (Some {| single_requestToken := t2; single_userId := userId;
                         single_message := message |}) d st) ∧
  (∀ t1 t2 guildId, guildMembers t1 guildId d st = guildMembers t2 guildId d st) ∧
  (∀ t1 t2, guilds t1 d st = guilds t2 d st) ∧
  (∀ t1 t2 userIds message selectAll delay,
     bulkDm (Some {| requestToken := t1; userIds := userIds; message := message;
                     selectAll := selectAll; delay := delay |}) d st
     = bulkDm (Some {| requestToken := t2; userIds := userIds; message := message;
                       selectAll := selectAll; delay := delay |}) d st).
Proof.
  assert (∀ e t1 t2, e ≠ StartReplyListener →
                     loginToken e (env_DISCORD_BOT_TOKEN st) t1
                     = loginToken e (env_DISCORD_BOT_TOKEN st) t2) as Hsame.
  { intros e t1 t2 He. unfold loginToken.
    assert (∀ t, selectToken e (env_DISCORD_BOT_TOKEN st) t = env_DISCORD_BOT_TOKEN st)
      as Hsel by (intros t; destruct e; try done; apply or_else_truthy, Henv).
    now rewrite !Hsel. }
  split; [|split; [|split]].
  - intros t1 t2 userId message. unfold dmSingle. cbn [single_requestToken].
    now rewrite (Hsame DmSingle t1 t2).
  - intros t1 t2 guildId. unfold guildMembers. now rewrite (Hsame GuildMembers t1 t2).
  - intros t1 t2. unfold guilds. now rewrite (Hsame Guilds t1 t2).
  - intros t1 t2 userIds message selectAll delay. unfold bulkDm. cbn [requestToken].
    now rewrite (Hsame DmBulk t1 t2).
Qed.

Lemma configured_token_overrides_witness :
  guilds (Some "req") Sample.everyone (init (Some "cfg"))
  = guilds None Sample.everyone (init (Some "cfg")).
Proof.
  exact (proj1 (proj2 (proj2 (configured_token_overrides Sample.everyone (init (Some "cfg"))
                                eq_refl)))
           (Some "req") None).
Defined.

End TokenMoreFacts.

(** * More on the request handlers *)

Section HandlerMoreFacts.
Import Server.

(** X8: once the session has logged in, a bulk dispatch always answers 200,
    however many recipients fail: the answer carries the tally of the loop
    over the resolved targets, whose successes and failures together
    number at most the targets and whose [failedIds] is a subsequence of
    the targets with one entry per failure; and its client takes the
    listener slot. *)
Theorem bulkDm_answers_with_tally (data : BulkBody) (d : Discord) (st : State)
    (token : string)
    (Htoken : Token.loginToken Token.DmBulk (env_DISCORD_BOT_TOKEN st) (requestToken data)
              = Some token)
    (Hlogin : login d token = true) :
  let targetUserIds :=
    Resolver.resolveTargets (userIds data) (selectAll data) (guilds_cache d) in
  ∃ sentCount failedCount failedIds,
    fst (bulkDm (Some data) d st) = respond 200 (Tally sentCount failedCount failedIds) ∧
    sentCount + failedCount ≤ length targetUserIds ∧
    length failedIds = failedCount ∧
    failedIds `sublist_of` targetUserIds ∧
    discordClient (snd (bulkDm (Some data) d st)) = Some (length (heap st)).
Proof.
  cbn zeta.
  set (targetUserIds :=
         Resolver.resolveTargets (userIds data) (selectAll data) (guilds_cache d)).
  destruct (loop_tally d targetUserIds (message data) (delay data) targetUserIds)
    as (Hatt & Hsum & Hlen).
  destruct (loop_order d targetUserIds (message data) (delay data) targetUserIds)
    as (_ & _ & Hsub & _).
  fold (Dispatch.sendLoop d targetUserIds (message data) (delay data)) in *.
  unfold bulkDm. rewrite Htoken. unfold newClient. cbv beta iota. rewrite Hlogin.
  fold targetUserIds. cbn [fst snd].
  eexists _, _, _. split; [reflexivity|]. split; [lia|]. split; [done|]. split; [done|].
  reflexivity.
Qed.

(** Two targets of which one cannot be resolved. *)
Lemma bulkDm_answers_with_tally_witness :
  ∃ sentCount failedCount failedIds,
    fst (bulkDm (Some (Sample.bulkBody ["A"; "B"] false None)) Sample.withoutB (init None))
    = respond 200 (Tally sentCount failedCount failedIds) ∧
    sentCount + failedCount ≤ 2.
Proof.
  destruct (bulkDm_answers_with_tally (Sample.bulkBody ["A"; "B"] false None)
              Sample.withoutB (init None) "req" eq_refl eq_refl)
    as (sentCount & failedCount & failedIds & Heq & Hle & _).
  exists sentCount, failedCount, failedIds. split; [exact Heq|exact Hle].
Defined.

(** X9: /api/dm/single answers 200 exactly when the body is valid, a token
    is at hand, the login resolves, the user id resolves to a user and
    both opening the direct channel and sending resolve; every other
    request is answered 400.  A resolved user flagged as a bot is sent the
    message like any other. *)
Theorem dmSingle_success (validation : option SingleBody) (d : Discord) (st : State) :
  let response := fst (dmSingle validation d st) in
  (status response = 200 ↔
   ∃ data token u,
     validation = Some data ∧
     Token.loginToken Token.DmSingle (env_DISCORD_BOT_TOKEN st) (single_requestToken data)
     = Some token ∧
     login d token = true ∧
     let fetched := users_fetch d (single_userId data) (world0 d) in
     let opened := createDM d (single_userId data) (snd fetched) in
     fst fetched = Resolves (Some u) ∧
     fst opened = true ∧
     fst (send d (single_userId data) (single_message data) (snd opened)) = true) ∧
  (status response = 200 ∨ status response = 400).
Proof.
  cbn zeta. split; [split|].
  - unfold dmSingle.
    destruct validation as [data|]; [|discriminate].
    destruct (Token.loginToken _ _ _) as [token|] eqn:Htoken; [|discriminate].
    unfold newClient. cbv beta iota.
    destruct (login d token) eqn:Hlogin; [|discriminate].
    destruct (users_fetch d (single_userId data) (world0 d)) as [fetched w1] eqn:Hfetch.
    destruct fetched as [|[u|]]; [discriminate| |discriminate].
    destruct (createDM d (single_userId data) w1) as [opened w2] eqn:Hopen.
    destruct (send d (single_userId data) (single_message data) w2) as [sent w3] eqn:Hsend.
    destruct opened, sent; cbn [andb fst status respond]; try discriminate.
    intros _. exists data, token, u. split; [done|]. split; [done|]. split; [done|].
    rewrite Hfetch. cbn [fst snd]. rewrite Hopen. cbn [fst snd]. now rewrite Hsend.
  - intros (data & token & u & -> & Htoken & Hlogin & Hfetch & Hopen & Hsend).
    unfold dmSingle. rewrite Htoken. unfold newClient. cbv beta iota. rewrite Hlogin.
    destruct (users_fetch d (single_userId data) (world0 d)) as [fetched w1].
    cbn [fst snd] in *. subst fetched.
    destruct (createDM d (single_userId data) w1) as [opened w2].
    cbn [fst snd] in *. subst opened. now rewrite Hsend.
  - unfold dmSingle, newClient. handler_cases; cbn; auto.
Qed.

(** A bot account as the recipient of a single message. *)
Lemma dmSingle_success_witness :
  status (fst (dmSingle (Some {| single_requestToken := Some "req"; single_userId := "R";
                                 single_message := "hi" |})
                 Sample.withRobot (init None))) = 200.
Proof.
  apply (proj1 (dmSingle_success _ Sample.withRobot (init None))).
  exists {| single_requestToken := Some "req"; single_userId := "R";
            single_message := "hi" |}, "req", {| user_bot := true |}.
  repeat split.
Defined.

Lemma noBots_keeps_all (members : list Preview.MemberView) :
  filter (fun member => Preview.js_not (Preview.view_bot member) = true) members = members.
Proof. now apply filter_all. Qed.

(** X10: with a guild id, /api/guild/members enumerates nothing and a
    failure is fatal: once logged in it answers 400 when the guild fetch or
    the member fetch rejects, 404 when the guild is absent, and otherwise
    200 with one view per cached member, bots included, since the bot
    filter reads a property the views do not have. *)
Theorem guildMembers_single_guild (requestToken : option string) (guildId : string)
    (d : Discord) (st : State) (token : string)
    (Hid : guildId ≠ EmptyString)
    (Htoken : Token.loginToken Token.GuildMembers (env_DISCORD_BOT_TOKEN st) requestToken
              = Some token)
    (Hlogin : login d token = true) :
  fst (guildMembers requestToken (Some guildId) d st)
  = match guilds_fetch d guildId with
    | Rejects => respond 400 Failure
    | Resolves None => respond 404 Failure
    | Resolves (Some guild) =>
        match members_fetch guild with
        | Rejects => respond 400 Failure
        | Resolves cache => respond 200 (Members (map (Preview.viewOf guild) cache))
        end
    end.
Proof.
  unfold guildMembers. rewrite Htoken. unfold newClient. cbv beta iota. rewrite Hlogin.
  change (default EmptyString (Some guildId)) with guildId.
  cbn [truthy]. rewrite bool_decide_eq_false_2 by done. cbn [negb].
  destruct (guilds_fetch d guildId) as [|[guild|]]; [done| |done].
  destruct (members_fetch guild) as [|cache]; [done|].
  cbn [fst]. now rewrite noBots_keeps_all.
Qed.

(** A guild that is found, with a bot among its members. *)
Lemma guildMembers_single_guild_witness :
  let d :=
    {| World := unit; world0 := tt; login := fun _ => true; guilds_cache := [];
       guilds_fetch := fun _ => Resolves (Some Sample.guildOne);
       users_fetch := fun _ w => (Rejects, w);
       createDM := fun _ w => (false, w);
       send := fun _ _ w => (false, w) |} in
  fst (guildMembers (Some "req") (Some "g1") d (init None))
  = respond 200 (Members [Preview.viewOf Sample.guildOne (Sample.member "X" false);
                          Preview.viewOf Sample.guildOne (Sample.member "R" true)]).
Proof.
  cbn zeta.
  apply (guildMembers_single_guild (Some "req") "g1"
           (Build_Discord unit tt (fun _ => true) [] (fun _ => Resolves (Some Sample.guildOne))
              (fun _ w => (Rejects, w)) (fun _ w => (false, w)) (fun _ _ w => (false, w)))
           (init None) "req"); [discriminate|reflexivity|reflexivity].
Defined.

End HandlerMoreFacts.

(** * The member preview *)

Section PreviewFacts.
Import Preview.

Lemma findIndexFrom_skip {A} (p : A → bool) (pre suf : list A) (i : Z) :
  (∀ x, x ∈ pre → p x = false) →
  findIndexFrom p (pre ++ suf) i = findIndexFrom p suf (i + Z.of_nat (length pre))%Z.
Proof.
  revert i. induction pre as [|a pre IH]; intros i Hpre.
  - cbn. f_equal. lia.
  - cbn [app findIndexFrom length]. rewrite (Hpre a) by left.
    rewrite IH by (intros x Hx; apply Hpre; now right). f_equal. lia.
Qed.

Lemma findIndexFrom_hit {A} (p : A → bool) (pre suf : list A) (i : Z) x :
  x ∈ pre → p x = true →
  (i ≤ findIndexFrom p (pre ++ suf) i < i + Z.of_nat (length pre))%Z.
Proof.
  revert i. induction pre as [|a pre IH]; intros i Hx Hp; [inversion Hx|].
  cbn [app findIndexFrom length]. destruct (p a) eqn:Ha; [lia|].
  apply elem_of_cons in Hx as [->|Hx]; [congruence|].
  specialize (IH (i + 1)%Z Hx Hp). lia.
Qed.

Lemma firstOccurrences_seen (seen1 seen2 : list string) l :
  (∀ z, z ∈ seen1 ↔ z ∈ seen2) → firstOccurrences seen1 l = firstOccurrences seen2 l.
Proof.
  revert seen1 seen2. induction l as [|x l IH]; intros seen1 seen2 Hsame; [done|].
  cbn [firstOccurrences]. rewrite (bool_decide_ext _ _ (Hsame (id x))).
  case_bool_decide; [now apply IH|]. f_equal. apply IH.
  intros z. rewrite !elem_of_cons, Hsame. done.
Qed.

(** The indexed filter of [removeDuplicates], read from position [|pre|]
    of the list [pre ++ suf] on. *)
Lemma removeDuplicates_from (pre suf : list MemberView) :
  filterFrom
    (fun member index =>
       bool_decide (index = findIndex (fun m => bool_decide (id m = id member)) (pre ++ suf)))
    suf (Z.of_nat (length pre))
  = firstOccurrences (map id pre) suf.
Proof.
  revert pre. induction suf as [|x suf IH]; intros pre; [done|].
  cbn [filterFrom firstOccurrences].
  specialize (IH (pre ++ [x])). rewrite <- app_assoc in IH. cbn [app] in IH.
  rewrite length_app, Nat2Z.inj_add in IH. cbn [length] in IH.
  change (Z.of_nat 1) with 1%Z in IH. rewrite IH. clear IH.
  unfold findIndex. destruct (decide (id x ∈ map id pre)) as [Hseen|Hseen].
  - rewrite (bool_decide_eq_true_2 (id x ∈ map id pre)) by done.
    apply list_elem_of_In, in_map_iff in Hseen as (y & Hy & Hin%list_elem_of_In).
    pose proof (findIndexFrom_hit (fun m => bool_decide (id m = id x)) pre (x :: suf) 0 y Hin
                  (bool_decide_eq_true_2 _ Hy)) as Hhit.
    rewrite bool_decide_eq_false_2 by lia.
    apply firstOccurrences_seen. intros z. rewrite map_app. cbn [map].
    rewrite elem_of_app, list_elem_of_singleton. split; [|tauto].
    intros [?| ->]; [done|]. rewrite <- Hy. apply list_elem_of_In, in_map, list_elem_of_In, Hin.
  - rewrite (bool_decide_eq_false_2 (id x ∈ map id pre)) by done.
    rewrite findIndexFrom_skip.
    + cbn [findIndexFrom]. rewrite (bool_decide_eq_true_2 (id x = id x)) by done.
      rewrite bool_decide_eq_true_2 by lia. f_equal.
      apply firstOccurrences_seen. intros z. rewrite map_app. cbn [map].
      rewrite elem_of_app, list_elem_of_singleton, elem_of_cons. tauto.
    + intros y Hy. apply bool_decide_eq_false_2. intros Heq. apply Hseen.
      rewrite <- Heq. apply list_elem_of_In, in_map, list_elem_of_In, Hy.
Qed.

Lemma removeDuplicates_firstOccurrences members :
  removeDuplicates members = firstOccurrences [] members.
Proof. exact (removeDuplicates_from [] members). Qed.

Lemma firstOccurrences_sublist seen l : firstOccurrences seen l `sublist_of` l.
Proof.
  revert seen. induction l as [|x l IH]; intros seen; [constructor|].
  cbn [firstOccurrences]. case_bool_decide; [apply sublist_cons|apply sublist_skip]; apply IH.
Qed.

Lemma firstOccurrences_fresh seen l y :
  y ∈ firstOccurrences seen l → id y ∉ seen.
Proof.
  revert seen. induction l as [|x l IH]; intros seen Hy; [inversion Hy|].
  cbn [firstOccurrences] in Hy. case_bool_decide as Hseen; [now apply IH|].
  apply elem_of_cons in Hy as [->|Hy]; [done|].
  apply IH in Hy. intros Hin. apply Hy. now right.
Qed.

Lemma firstOccurrences_NoDup seen l : NoDup (map id (firstOccurrences seen l)).
Proof.
  revert seen. induction l as [|x l IH]; intros seen; [constructor|].
  cbn [firstOccurrences]. case_bool_decide; [apply IH|].
  cbn [map]. apply NoDup_cons. split; [|apply IH].
  intros (y & Hy & Hin%list_elem_of_In)%list_elem_of_In%in_map_iff.
  apply firstOccurrences_fresh in Hin. apply Hin. rewrite Hy. left.
Qed.

Lemma firstOccurrences_covers seen l x :
  x ∈ l → id x ∈ seen ∨ id x ∈ map id (firstOccurrences seen l).
Proof.
  revert seen. induction l as [|a l IH]; intros seen Hx; [inversion Hx|].
  cbn [firstOccurrences]. apply elem_of_cons in Hx as [->|Hx].
  - case_bool_decide; [now left|right; left].
  - case_bool_decide; [now apply IH|].
    destruct (IH (id a :: seen) Hx) as [[->|?]%elem_of_cons|?].
    + right. left.
    + now left.
    + right. now right.
Qed.

Lemma firstOccurrences_first seen l y :
  y ∈ firstOccurrences seen l ↔
  ∃ pre suf, l = pre ++ y :: suf ∧ (id y ∉ seen) ∧ id y ∉ map id pre.
Proof.
  revert seen. induction l as [|a l IH]; intros seen.
  - split; [intros H; inversion H|]. intros (pre & suf & Heq & _). now destruct pre.
  - cbn [firstOccurrences]. case_bool_decide as Hseen.
    + rewrite IH. split.
      * intros (pre & suf & -> & Hfresh & Hpre). exists (a :: pre), suf.
        split; [done|]. split; [done|]. cbn [map].
        intros [Heq|?]%elem_of_cons; [|done]. apply Hfresh. now rewrite Heq.
      * intros (pre & suf & Heq & Hfresh & Hpre). destruct pre as [|b pre].
        -- injection Heq as <- <-. done.
        -- injection Heq as <- ->. exists pre, suf. split; [done|]. split; [done|].
           intros Hin. apply Hpre. cbn [map]. now right.
    + rewrite elem_of_cons, IH. split.
      * intros [->|(pre & suf & -> & Hfresh & Hpre)].
        -- exists [], l. split; [done|]. split; [done|]. cbn. intros H. inversion H.
        -- exists (a :: pre), suf. split; [done|].
           split; [intros Hin; apply Hfresh; now right|]. cbn [map].
           intros [Heq|?]%elem_of_cons; [|done]. apply Hfresh. rewrite Heq. left.
      * intros (pre & suf & Heq & Hfresh & Hpre). destruct pre as [|b pre].
        -- injection Heq as <- <-. now left.
        -- injection Heq as <- ->. right. exists pre, suf. split; [done|].
           cbn [map] in Hpre. apply not_elem_of_cons in Hpre as [Hne Hpre].
           split; [|done]. intros [?|?]%elem_of_cons; done.
Qed.

(** X11: [removeDuplicates] keeps, in their order, exactly the members that
    are the first of the list with their id: the result is a subsequence
    of the list, no id occurs twice in it, every id of the list occurs in
    it, and a member is kept if and only if no member before it carries
    the same id. *)
Theorem removeDuplicates_first_wins (members : list MemberView) :
  removeDuplicates members `sublist_of` members ∧
  NoDup (map id (removeDuplicates members)) ∧
  (∀ x, x ∈ members → id x ∈ map id (removeDuplicates members)) ∧
  (∀ y, y ∈ removeDuplicates members ↔
        ∃ pre suf, members = pre ++ y :: suf ∧ id y ∉ map id pre).
Proof.
  rewrite removeDuplicates_firstOccurrences.
  split; [apply firstOccurrences_sublist|]. split; [apply firstOccurrences_NoDup|]. split.
  - intros x Hx. destruct (firstOccurrences_covers [] members x Hx) as [H|H]; [inversion H|done].
  - intros y. rewrite firstOccurrences_first. split.
    + intros (pre & suf & Heq & _ & Hpre). now exists pre, suf.
    + intros (pre & suf & Heq & Hpre). exists pre, suf. split; [done|]. split; [|done].
      intros H. inversion H.
Qed.

Lemma foldl_addGuild_views acc guildArray :
  foldl addGuild acc guildArray = acc ++ flat_map viewsOf guildArray.
Proof.
  revert acc. induction guildArray as [|g guildArray IH]; intros acc; cbn [foldl flat_map].
  - now rewrite app_nil_r.
  - rewrite IH. unfold addGuild, viewsOf.
    destruct (members_fetch g); [done|]. now rewrite <- app_assoc.
Qed.

Lemma allGuildMembers_views guildArray :
  allGuildMembers guildArray = firstOccurrences [] (flat_map viewsOf guildArray).
Proof.
  unfold allGuildMembers. rewrite noBots_keeps_all, foldl_addGuild_views.
  apply removeDuplicates_firstOccurrences.
Qed.

Lemma elem_of_views guildArray v :
  v ∈ flat_map viewsOf guildArray ↔
  ∃ guild cache m, guild ∈ guildArray ∧ members_fetch guild = Resolves cache ∧
                   m ∈ cache ∧ v = viewOf guild m.
Proof.
  rewrite list_elem_of_In, in_flat_map. unfold viewsOf. split.
  - intros (guild & Hg%list_elem_of_In & Hv).
    destruct (members_fetch guild) as [|cache] eqn:Hfetch; [inversion Hv|].
    apply in_map_iff in Hv as (m & <- & Hm%list_elem_of_In). now exists guild, cache, m.
  - intros (guild & cache & m & Hg & Hfetch & Hm & ->). exists guild.
    split; [now apply list_elem_of_In|]. rewrite Hfetch.
    apply in_map. now apply list_elem_of_In.
Qed.

(** X12: the all-guilds preview lists every member of every guild whose
    member fetch resolved, bots included (the bot filter removes nothing),
    once per id; each view is the view of such a member; and a member
    found in several guilds is listed with the guild that comes first in
    the enumeration. *)
Theorem allGuildMembers_once_each (guildArray : list Guild) :
  NoDup (map id (allGuildMembers guildArray)) ∧
  (∀ v, v ∈ allGuildMembers guildArray →
        ∃ guild cache m, guild ∈ guildArray ∧ members_fetch guild = Resolves cache ∧
                         m ∈ cache ∧ v = viewOf guild m) ∧
  (∀ guild cache m, guild ∈ guildArray → members_fetch guild = Resolves cache → m ∈ cache →
                    member_id m ∈ map id (allGuildMembers guildArray)) ∧
  (∀ before guild after earlier m later,
     guildArray = before ++ guild :: after →
     members_fetch guild = Resolves (earlier ++ m :: later) →
     (∀ v, v ∈ flat_map viewsOf before → id v ≠ member_id m) →
     (∀ m', m' ∈ earlier → member_id m' ≠ member_id m) →
     viewOf guild m ∈ allGuildMembers guildArray).
Proof.
  rewrite allGuildMembers_views.
  split; [apply firstOccurrences_NoDup|]. split; [|split].
  - intros v Hv. apply elem_of_views.
    exact (sublist_subseteq _ _ (firstOccurrences_sublist _ _) v Hv).
  - intros guild cache m Hg Hfetch Hm.
    destruct (firstOccurrences_covers [] (flat_map viewsOf guildArray) (viewOf guild m))
      as [H|H]; [|inversion H|exact H].
    apply elem_of_views. now exists guild, cache, m.
  - intros before guild after earlier m later -> Hfetch Hbefore Hearlier.
    apply firstOccurrences_first.
    exists (flat_map viewsOf before ++ map (viewOf guild) earlier),
      (map (viewOf guild) later ++ flat_map viewsOf after).
    split; [|split].
    + rewrite flat_map_app. cbn [flat_map]. unfold viewsOf at 2. rewrite Hfetch.
      rewrite map_app. cbn [map]. now rewrite <- !app_assoc.
    + intros H. inversion H.
    + rewrite map_app, elem_of_app.
      intros [(v & Hv & Hin%list_elem_of_In)%list_elem_of_In%in_map_iff
             |(v & Hv & (m' & <- & Hm'%list_elem_of_In)%in_map_iff)%list_elem_of_In%in_map_iff].
      * now apply (Hbefore v).
      * now apply (Hearlier m').
Qed.

(** The member "X" of two guilds, listed with the first. *)
Lemma allGuildMembers_once_each_witness :
  viewOf Sample.guildOne (Sample.member "X" false)
  ∈ allGuildMembers [Sample.guildOne; Sample.guildDown; Sample.guildThree] ∧
  map guildId (allGuildMembers [Sample.guildOne; Sample.guildDown; Sample.guildThree])
  = ["g1"; "g1"; "g3"].
Proof.
  split; [|reflexivity].
  apply (proj2 (proj2 (proj2 (allGuildMembers_once_each
                                [Sample.guildOne; Sample.guildDown; Sample.guildThree])))
           [] Sample.guildOne [Sample.guildDown; Sample.guildThree]
           [] (Sample.member "X" false) [Sample.member "R" true]).
  - reflexivity.
  - reflexivity.
  - intros v H. inversion H.
  - intros m' H. inversion H.
Defined.

End PreviewFacts.

(** * Sessions are never leaked *)

Section SessionFacts.
Import Server.

Lemma session_inv_init envToken : session_inv (init envToken).
Proof. intros client c Hc. inversion Hc. Qed.

Lemma session_inv_same st st' : same_sessions st st' → session_inv st → session_inv st'.
Proof. intros [Hheap Hslot]. unfold session_inv. now rewrite Hheap, Hslot. Qed.

Lemma session_inv_quiet st st' : session_inv st → quiet st st' → session_inv st'.
Proof.
  intros Hinv [Hslot [Hheap|(dead & Hdead & Hheap)]].
  - now apply (session_inv_same st).
  - intros client c Hc Hlive. rewrite Hheap in Hc. rewrite Hslot.
    apply lookup_snoc_Some in Hc as [[_ Hc]|[_ <-]]; [|congruence]. now apply Hinv.
Qed.

Lemma session_inv_handed_over attached st st' :
  session_inv st → handed_over attached st st' → session_inv st'.
Proof.
  intros Hinv (Hslot & new & Hnew & Hone & Hheap) client c Hc Hlive.
  rewrite Hheap in Hc. rewrite Hslot.
  apply lookup_snoc_Some in Hc as [[_ Hc]|[Hclient <-]].
  - exfalso. destruct (discordClient st) as [previous|] eqn:Hprev; cbn [retire] in Hc.
    + rewrite list_lookup_alter in Hc. destruct (decide (previous = client)) as [->|Hne].
      * destruct (heap st !! client); [|done]. injection Hc as <-. done.
      * destruct (Hinv client c Hc Hlive) as [Hholder _]. congruence.
    + destruct (Hinv client c Hc Hlive) as [Hholder _]. congruence.
  - rewrite retire_length in Hclient. now subst client.
Qed.

Lemma session_inv_step st e : slot_inv st → session_inv st → session_inv (step st e).
Proof.
  intros Hslot Hinv.
  destruct (step_sessions st e Hslot) as [Hsame|[Hquiet|[attached Hover]]].
  - now apply (session_inv_same st).
  - now apply (session_inv_quiet st).
  - now apply (session_inv_handed_over attached st).
Qed.

Lemma session_inv_run events st :
  slot_inv st → session_inv st → session_inv (run st events).
Proof.
  revert st. induction events as [|e events IH]; intros st Hslot Hinv; [done|].
  cbn [run foldl]. apply IH; [now apply slot_inv_step|now apply session_inv_step].
Qed.

(** A step revives no client, and the client it constructs is live
    afterwards only as the holder of the slot. *)
Lemma step_live st e client :
  slot_inv st → live (step st e) client →
  live st client ∨ (client = length (heap st) ∧ discordClient (step st e) = Some client).
Proof.
  intros Hslot (c & Hc & Hlive).
  destruct (step_sessions st e Hslot)
    as [[Hheap _]|[[_ [Hheap|(dead & Hdead & Hheap)]]|[attached (Hnew & new & _ & _ & Hheap)]]];
    rewrite Hheap in Hc.
  - left. now exists c.
  - left. now exists c.
  - apply lookup_snoc_Some in Hc as [[_ Hc]|[_ <-]]; [|congruence]. left. now exists c.
  - apply lookup_snoc_Some in Hc as [[_ Hc]|[Hclient _]].
    + left. destruct (discordClient st) as [previous|]; cbn [retire] in Hc; [|now exists c].
      rewrite list_lookup_alter in Hc. destruct (decide (previous = client)) as [->|Hne].
      * destruct (heap st !! client); [|done]. injection Hc as <-. done.
      * now exists c.
    + right. rewrite retire_length in Hclient. now subst client.
Qed.

(** X13: no handler leaks the session it constructed.  Each request is
    one step, complete when its response is sent; in every state reached
    by such steps, interleaved at will with platform messages, reply posts
    and WebSocket events, a client on which [destroy()] has not been
    called is the holder of the listener slot and carries the reply
    observer exactly once: every client constructed by /api/dm/single,
    /api/guild/members, /api/guilds or an aborted bulk dispatch has been
    destroyed, and so has every former listener.  The holder of the slot
    may itself be destroyed (a rejected login of /api/startReplyListener).
    A step revives no client, and the client it constructs is live
    afterwards only as the holder of the slot. *)
Theorem no_session_leak (envToken : option string) (events : list Event) :
  let st := run (init envToken) events in
  (∀ client, live st client → discordClient st = Some client) ∧
  (∀ client, client < length (heap st) → discordClient st ≠ Some client →
             isDestroyed st client) ∧
  (∀ client c, heap st !! client = Some c → destroyed c = false → observers c = 1) ∧
  (∀ e client,
     live (step st e) client →
     live st client ∨
     (client = length (heap st) ∧ discordClient (step st e) = Some client)).
Proof.
  cbn zeta.
  pose proof (slot_inv_run events _ (slot_inv_init envToken)) as Hslot.
  pose proof (session_inv_run events _ (slot_inv_init envToken) (session_inv_init envToken))
    as Hinv.
  set (st := run (init envToken) events) in *.
  split; [|split; [|split]].
  - intros client (c & Hc & Hlive). now destruct (Hinv client c Hc Hlive).
  - intros client Hlt Hnot. destruct (lookup_lt_is_Some_2 _ _ Hlt) as [c Hc].
    exists c. split; [done|]. destruct (destroyed c) eqn:Hd; [done|].
    now destruct (Hinv client c Hc Hd).
  - intros client c Hc Hlive. now destruct (Hinv client c Hc Hlive).
  - intros e client. now apply step_live.
Qed.

(** A run through every handler that constructs a client, ending with a
    start-listener request whose login rejects. *)
Lemma no_session_leak_witness :
  let st :=
    run (init None)
      [GuildsRequest (Some "req") Sample.everyone;
       BulkRequest (Some (Sample.bulkBody ["A"] false None)) Sample.everyone;
       GuildMembersRequest (Some "req") None Sample.withRobot;
       StartReplyListenerRequest (Some "req") Sample.everyone;
       DmSingleRequest (Some {| single_requestToken := None; single_userId := "A";
                                single_message := "hi" |}) Sample.everyone;
       StartReplyListenerRequest (Some "req") Sample.offline] in
  length (heap st) = 5 ∧ discordClient st = Some 4 ∧
  isDestroyed st 0 ∧ isDestroyed st 1 ∧ isDestroyed st 2 ∧ isDestroyed st 3 ∧
  ∀ client, ¬ live st client.
Proof.
  cbn zeta.
  destruct (no_session_leak None
              [GuildsRequest (Some "req") Sample.everyone;
               BulkRequest (Some (Sample.bulkBody ["A"] false None)) Sample.everyone;
               GuildMembersRequest (Some "req") None Sample.withRobot;
               StartReplyListenerRequest (Some "req") Sample.everyone;
               DmSingleRequest (Some {| single_requestToken := None; single_userId := "A";
                                        single_message := "hi" |}) Sample.everyone;
               StartReplyListenerRequest (Some "req") Sample.offline])
    as (Hlive & Hdead & _).
  split; [reflexivity|]. split; [reflexivity|].
  split; [apply Hdead; [vm_compute; lia|discriminate]|].
  split; [apply Hdead; [vm_compute; lia|discriminate]|].
  split; [apply Hdead; [vm_compute; lia|discriminate]|].
  split; [apply Hdead; [vm_compute; lia|discriminate]|].
  intros client Hclient. pose proof (Hlive client Hclient) as Hholder.
  vm_compute in Hholder. injection Hholder as <-.
  destruct Hclient as (c & Hc & Halive). vm_compute in Hc. injection Hc as <-.
  discriminate.
Defined.

(** X14: a message event is handled at most once: in every reachable state
    delivering a message to a client either changes nothing or runs the
    reply listener exactly once, and then the client is the holder of the
    listener slot; so one message adds at most one row to the store. *)
Theorem message_handled_once (envToken : option string) (events : list Event)
    (client : nat) (m : Message) (now : nat) (accepted : bool) :
  let st := run (init envToken) events in
  let st' := emitMessageCreate client m now accepted st in
  (st' = st ∨ (discordClient st = Some client ∧ st' = onMessageCreate m now accepted st)) ∧
  length (messageReplies st') ≤ S (length (messageReplies st)).
Proof.
  cbn zeta.
  pose proof (session_inv_run events _ (slot_inv_init envToken) (session_inv_init envToken))
    as Hinv.
  set (st := run (init envToken) events) in *.
  assert (emitMessageCreate client m now accepted st = st ∨
          (discordClient st = Some client ∧
           emitMessageCreate client m now accepted st = onMessageCreate m now accepted st))
    as Hcases.
  { unfold emitMessageCreate. destruct (heap st !! client) as [c|] eqn:Hc; [|now left].
    destruct (destroyed c) eqn:Hd; [now left|]. cbn [orb].
    destruct (negb _); [now left|].
    destruct (Hinv client c Hc Hd) as [Hholder ->]. right. done. }
  split; [exact Hcases|].
  destruct Hcases as [->|[_ ->]]; [lia|].
  unfold onMessageCreate. destruct (_ && _); [|lia].
  destruct accepted; [|cbn; lia].
  rewrite (proj1 (store_accepted _ _)), length_app. cbn. lia.
Qed.

End SessionFacts.

(** * More on the store and the fan-out *)

Section StoreFacts.
Import Server.

Lemma store_prefix accepted values st :
  messageReplies st `prefix_of` messageReplies (store accepted values st).
Proof. destruct accepted; [now exists [values]|done]. Qed.

Lemma iter_prefix n (f : State → State) st :
  (∀ st, messageReplies st `prefix_of` messageReplies (f st)) →
  messageReplies st `prefix_of` messageReplies (Nat.iter n f st).
Proof.
  intros Hf. induction n as [|n IH]; [done|].
  rewrite Nat.iter_succ. etransitivity; [exact IH|apply Hf].
Qed.

Lemma step_prefix st e : messageReplies st `prefix_of` messageReplies (step st e).
Proof.
  destruct e as [v d|rt gid d|rt d|v d|tok d|c m now acc|b now acc|k| |w ok|w
                |w data now acc|w|w|w]; cbn [step].
  - now destruct (dmSingle_same_fanout v d st) as (_ & _ & -> & _).
  - now destruct (guildMembers_same_fanout rt gid d st) as (_ & _ & -> & _).
  - now destruct (guilds_same_fanout rt d st) as (_ & _ & -> & _).
  - now destruct (bulkDm_same_fanout v d st) as (_ & _ & -> & _).
  - now destruct (startReplyListener_same_fanout tok d st) as (_ & _ & -> & _).
  - unfold emitMessageCreate. destruct (heap st !! c) as [cl|]; [|done].
    destruct (_ || _); [done|]. apply iter_prefix. intros st0. unfold onMessageCreate.
    destruct (_ && _); [apply store_prefix|done].
  - apply store_prefix.
  - unfold resume. now destruct (resuming st !! k).
  - done.
  - unfold historyAnswered. destruct (sockets st !! w) as [s|]; [|done].
    now destruct (history s).
  - unfold historySettled. destruct (sockets st !! w) as [s|]; [|done].
    now destruct (history s) as [|[|]|].
  - unfold wsMessage. destruct (sockets st !! w), data; try done.
    case_bool_decide; [apply store_prefix|done].
  - done.
  - done.
  - done.
Qed.

(** X15: the reply store is append-only under every handler: whatever
    happens from any state on, the rows stored so far stay where they are,
    unchanged and in their order, and new rows come after them. *)
Theorem replies_append_only (st : State) (events : list Event) :
  messageReplies st `prefix_of` messageReplies (run st events).
Proof.
  revert st. induction events as [|e events IH]; intros st; [done|].
  cbn [run foldl]. etransitivity; [apply step_prefix|apply IH].
Qed.

(** X16: when the handler of a committed insert resumes, every subscriber
    that is in [clients] with an open socket is sent the stored row as one
    [newReply] frame, every other socket is left as it is, the row leaves
    the waiting rows, and the store is not touched. *)
Theorem resume_reaches_subscribers (envToken : option string) (events : list Event)
    (k : nat) (row : Reply)
    (Hrow : resuming (run (init envToken) events) !! k = Some row) :
  let st := run (init envToken) events in
  let st' := resume k st in
  resuming st' = delete k (resuming st) ∧
  messageReplies st' = messageReplies st ∧
  clients st' = clients st ∧
  (∀ ws s, ws ∈ clients st → sockets st !! ws = Some s → readyState s = OPEN →
           framesOf st' ws = received s ++ [NewReply row]) ∧
  (∀ ws s, sockets st !! ws = Some s → ws ∉ clients st ∨ readyState s ≠ OPEN →
           sockets st' !! ws = Some s).
Proof.
  cbn zeta.
  pose proof (fanout_inv_run events _ (fanout_inv_init envToken)) as (Hnd & _).
  set (st := run (init envToken) events) in *.
  unfold resume, framesOf. rewrite Hrow. cbn.
  split; [done|]. split; [done|]. split; [done|]. split.
  - intros ws s Hin Hs Hopen. rewrite broadcast_lookup by done.
    rewrite decide_True by done. rewrite Hs. cbn. unfold accept. now rewrite Hopen.
  - intros ws s Hs Hno. rewrite broadcast_lookup by done. rewrite Hs.
    destruct (decide (ws ∈ clients st)); [|done]. cbn. unfold accept.
    destruct Hno as [?|Hno]; [done|]. now destruct (readyState s).
Qed.

(** Two subscribers, one of them closing, and one reply. *)
Lemma resume_reaches_subscribers_witness :
  let st := run (init None)
              [WsConnection; WsConnection; WsClosing 1; PostReplies Sample.hello 5 true] in
  framesOf (resume 0 st) 0 = [NewReply (valuesOf Sample.hello 5)] ∧
  framesOf (resume 0 st) 1 = [].
Proof.
  cbn zeta.
  destruct (resume_reaches_subscribers None
              [WsConnection; WsConnection; WsClosing 1; PostReplies Sample.hello 5 true]
              0 (valuesOf Sample.hello 5) eq_refl) as (_ & _ & _ & Hopen & Hother).
  split.
  - exact (Hopen 0 _ ltac:(left) eq_refl eq_refl).
  - unfold framesOf.
    rewrite (Hother 1 {| readyState := CLOSING; received := []; history := QIssued |} eq_refl);
      [reflexivity|right; discriminate].
Defined.

End StoreFacts.

(** * What a socket can be sent *)

Section SocketFacts.
Import Server.

Lemma accept_fields frame s :
  readyState (accept frame s) = readyState s ∧ history (accept frame s) = history s ∧
  received (accept frame s) = received s ++ (if isOpen (readyState s) then [frame] else []).
Proof. unfold accept. destruct (isOpen (readyState s)); cbn; now rewrite ?app_nil_r. Qed.

(** A broadcast, seen from one socket: its state and history query are
    left alone, and it is sent copies of the frame only when it is open and
    a member of [clients]. *)
Lemma foldl_deliver_lookup frame (cl : list nat) (socks : list Socket) (ws : nat) s :
  socks !! ws = Some s →
  ∃ s', foldl (fun socks w => deliver frame w socks) socks cl !! ws = Some s' ∧
        readyState s' = readyState s ∧ history s' = history s ∧
        (received s' = received s ∨
         (isOpen (readyState s) = true ∧ ws ∈ cl ∧
          ∃ n, received s' = received s ++ replicate n frame)).
Proof.
  revert socks s. induction cl as [|a cl IH]; intros socks s Hs; cbn [foldl].
  - exists s. auto.
  - destruct (accept_fields frame s) as (Hready & Hhist & Hrecv).
    destruct (decide (a = ws)) as [->|Hne].
    + destruct (IH (deliver frame ws socks) (accept frame s)) as (s' & Hs' & Hr & Hh & Hf).
      { unfold deliver. now rewrite list_lookup_alter_eq, Hs. }
      exists s'. split; [done|]. split; [congruence|]. split; [congruence|].
      rewrite Hready in Hf. rewrite Hrecv in Hf.
      destruct (isOpen (readyState s)) eqn:Hopen.
      * right. split; [done|]. split; [left|].
        destruct Hf as [->|(_ & _ & n & ->)]; [now exists 1|].
        exists (S n). now rewrite <- app_assoc.
      * left. rewrite app_nil_r in Hf. now destruct Hf as [?|[? _]].
    + destruct (IH (deliver frame a socks) s) as (s' & Hs' & Hr & Hh & Hf).
      { unfold deliver. now rewrite list_lookup_alter_ne. }
      exists s'. split; [done|]. split; [done|]. split; [done|].
      destruct Hf as [?|(? & ? & ?)]; [now left|right]. split; [done|]. split; [now right|done].
Qed.

Lemma alter_lookup_Some (f : Socket → Socket) (w ws : nat) (socks : list Socket) s :
  socks !! ws = Some s →
  alter f w socks !! ws = Some (if decide (w = ws) then f s else s).
Proof.
  intros Hs. rewrite list_lookup_alter. destruct (decide (w = ws)) as [->|]; [|done].
  now rewrite Hs.
Qed.

(** One step, seen from one socket. *)
Lemma socket_step st e (ws : nat) s :
  sockets st !! ws = Some s →
  ∃ s', sockets (step st e) !! ws = Some s' ∧
    (readyState s' = readyState s ∨ readyState s' = CLOSING ∨ readyState s' = CLOSED) ∧
    (received s' = received s ∨
     (isOpen (readyState s) = true ∧ ws ∈ clients st ∧
      ∃ k row n, e = InsertResumed k ∧ resuming st !! k = Some row ∧
                 received s' = received s ++ replicate n (NewReply row)) ∨
     (isOpen (readyState s) = true ∧
      ∃ rows, e = WsHistorySettled ws ∧ history s = QAnswered (Resolves rows) ∧
              received s' = received s ++ [InitialReplies rows])) ∧
    (history s' = history s ∨
     (history s = QIssued ∧
      ∃ ok, e = WsHistoryAnswered ws ok ∧
            history s' = QAnswered (if ok then Resolves (orderByTimestamp (messageReplies st))
                                    else Rejects)) ∨
     ((∃ answer, history s = QAnswered answer) ∧ e = WsHistorySettled ws ∧
      history s' = QSettled)).
Proof.
  intros Hs.
  assert (∀ st', sockets st' = sockets st →
                 ∃ s', sockets st' !! ws = Some s' ∧
                   (readyState s' = readyState s ∨ readyState s' = CLOSING ∨
                    readyState s' = CLOSED) ∧
                   (received s' = received s ∨
                    (isOpen (readyState s) = true ∧ ws ∈ clients st ∧
                     ∃ k row n, e = InsertResumed k ∧ resuming st !! k = Some row ∧
                                received s' = received s ++ replicate n (NewReply row)) ∨
                    (isOpen (readyState s) = true ∧
                     ∃ rows, e = WsHistorySettled ws ∧ history s = QAnswered (Resolves rows) ∧
                             received s' = received s ++ [InitialReplies rows])) ∧
                   (history s' = history s ∨
                    (history s = QIssued ∧
                     ∃ ok, e = WsHistoryAnswered ws ok ∧
                           history s' = QAnswered (if ok
                                                   then Resolves (orderByTimestamp
                                                                    (messageReplies st))
                                                   else Rejects)) ∨
                    ((∃ answer, history s = QAnswered answer) ∧ e = WsHistorySettled ws ∧
                     history s' = QSettled))) as Hsame.
  { intros st' ->. exists s. auto. }
  destruct e as [v d|rt gid d|rt d|v d|tok d|c m now acc|b now acc|k| |w ok|w
                |w data now acc|w|w|w]; cbn [step].
  - apply Hsame. now destruct (dmSingle_same_fanout v d st) as (_ & -> & _).
  - apply Hsame. now destruct (guildMembers_same_fanout rt gid d st) as (_ & -> & _).
  - apply Hsame. now destruct (guilds_same_fanout rt d st) as (_ & -> & _).
  - apply Hsame. now destruct (bulkDm_same_fanout v d st) as (_ & -> & _).
  - apply Hsame. now destruct (startReplyListener_same_fanout tok d st) as (_ & -> & _).
  - apply Hsame. apply sockets_emit.
  - apply Hsame. apply sockets_store.
  - unfold resume. destruct (resuming st !! k) as [row|] eqn:Hrow; [|now apply Hsame].
    cbn [sockets broadcast with_sockets with_resuming clients].
    destruct (foldl_deliver_lookup (NewReply row) (clients st) (sockets st) ws s Hs)
      as (s' & Hs' & Hr & Hh & Hf).
    exists s'. split; [exact Hs'|]. split; [now left|]. split; [|now left].
    destruct Hf as [?|(Hopen & Hin & n & Hn)]; [now left|].
    right. left. split; [done|]. split; [done|]. now exists k, row, n.
  - exists s. cbn. rewrite lookup_app_l by (now apply lookup_lt_Some in Hs). auto.
  - unfold historyAnswered. destruct (sockets st !! w) as [sw|] eqn:Hw; [|now apply Hsame].
    destruct (history sw) eqn:Hhist; [|now apply Hsame|now apply Hsame].
    cbn [sockets setHistory with_sockets]. rewrite (alter_lookup_Some _ _ _ _ _ Hs).
    destruct (decide (w = ws)) as [->|Hne]; [|exists s; auto].
    rewrite Hs in Hw. injection Hw as <-.
    eexists. split; [reflexivity|]. cbn. split; [now left|]. split; [now left|].
    right. left. split; [done|]. now exists ok.
  - unfold historySettled. destruct (sockets st !! w) as [sw|] eqn:Hw; [|now apply Hsame].
    destruct (history sw) as [|[|rows]|] eqn:Hhist; [now apply Hsame| | |now apply Hsame].
    + cbn [sockets setHistory with_sockets]. rewrite (alter_lookup_Some _ _ _ _ _ Hs).
      destruct (decide (w = ws)) as [->|Hne]; [|exists s; auto].
      rewrite Hs in Hw. injection Hw as <-.
      eexists. split; [reflexivity|]. cbn. split; [now left|]. split; [now left|].
      right. right. split; [now exists Rejects|done].
    + cbn [sockets setHistory with_sockets]. unfold deliver.
      pose proof (alter_lookup_Some (accept (InitialReplies rows)) w ws _ _ Hs) as Hinner.
      rewrite (alter_lookup_Some _ _ _ _ _ Hinner).
      destruct (decide (w = ws)) as [->|Hne]; [|exists s; auto].
      rewrite Hs in Hw. injection Hw as <-.
      destruct (accept_fields (InitialReplies rows) s) as (Hready & _ & Hrecv).
      eexists. split; [reflexivity|]. cbn [readyState received history].
      split; [now left|]. split.
      * rewrite Hrecv. destruct (isOpen (readyState s)) eqn:Hopen.
        -- right. right. split; [done|]. now exists rows.
        -- left. apply app_nil_r.
      * right. right. split; [now exists (Resolves rows)|done].
  - apply Hsame. unfold wsMessage. destruct (sockets st !! w), data; try done.
    case_bool_decide; [apply sockets_store|done].
  - cbn [sockets setReadyState with_sockets]. rewrite (alter_lookup_Some _ _ _ _ _ Hs).
    destruct (decide (w = ws)); [|exists s; auto].
    eexists. split; [reflexivity|]. cbn. auto.
  - cbn [sockets wsClose setReadyState with_sockets with_clients].
    rewrite (alter_lookup_Some _ _ _ _ _ Hs).
    destruct (decide (w = ws)); [|exists s; auto].
    eexists. split; [reflexivity|]. cbn. auto.
  - now apply Hsame.
Qed.

End SocketFacts.

Section SubscriberFacts.
Import Server.

Lemma clients_emit client m now accepted st :
  clients (emitMessageCreate client m now accepted st) = clients st.
Proof.
  unfold emitMessageCreate.
  destruct (heap st !! client) as [c|]; [|done].
  destruct (destroyed c || negb (bool_decide (is_Some (client_token c)))); [done|].
  induction (observers c) as [|n IH]; [done|].
  rewrite Nat.iter_succ. unfold onMessageCreate at 1.
  destruct (channel_isDMBased m && negb (author_bot m)); [|done].
  now destruct accepted.
Qed.

(** A socket that is not in [clients] stays out of it: a connection adds
    a new socket only. *)
Lemma clients_step st e (ws : nat) :
  ws < length (sockets st) → (ws ∉ clients st) → ws ∉ clients (step st e).
Proof.
  intros Hlt Hout.
  destruct e as [v d|rt gid d|rt d|v d|tok d|c m now acc|b now acc|k| |w ok|w
                |w data now acc|w|w|w]; cbn [step].
  - now destruct (dmSingle_same_fanout v d st) as (-> & _).
  - now destruct (guildMembers_same_fanout rt gid d st) as (-> & _).
  - now destruct (guilds_same_fanout rt d st) as (-> & _).
  - now destruct (bulkDm_same_fanout v d st) as (-> & _).
  - now destruct (startReplyListener_same_fanout tok d st) as (-> & _).
  - now rewrite clients_emit.
  - unfold postReplies, store. now destruct acc.
  - unfold resume. now destruct (resuming st !! k).
  - cbn. unfold setAdd. case_bool_decide; [done|].
    intros [?|Heq%list_elem_of_singleton]%elem_of_app; [done|lia].
  - unfold historyAnswered. destruct (sockets st !! w) as [s|]; [|done].
    now destruct (history s).
  - unfold historySettled. destruct (sockets st !! w) as [s|]; [|done].
    now destruct (history s) as [|[|]|].
  - unfold wsMessage. destruct (sockets st !! w), data; try done.
    case_bool_decide; [|done]. unfold store. now destruct acc.
  - done.
  - cbn. unfold setDelete. now intros [_ ?]%list_elem_of_filter.
  - cbn. unfold setDelete. now intros [_ ?]%list_elem_of_filter.
Qed.

Lemma newReplies_replicate_initial frames n row :
  initialReplies (frames ++ replicate n (NewReply row)) = initialReplies frames.
Proof.
  induction frames as [|[data|data] frames IH]; cbn [app initialReplies].
  - induction n as [|n IHn]; [done|exact IHn].
  - now rewrite IH.
  - exact IH.
Qed.

Lemma newReplies_snoc_initial frames rows :
  newReplies (frames ++ [InitialReplies rows]) = newReplies frames.
Proof. rewrite newReplies_app. cbn. apply app_nil_r. Qed.

Lemma initialReplies_snoc frames rows :
  initialReplies (frames ++ [InitialReplies rows]) = initialReplies frames ++ [rows].
Proof.
  induction frames as [|[data|data] frames IH]; cbn [app initialReplies]; [done| |done].
  now rewrite IH.
Qed.

(** X17: a subscriber whose socket has closed is never written to again,
    and one whose socket has reported an error is never sent a [newReply]
    again, whatever happens afterwards. *)
Theorem closed_subscriber_is_left_alone (st : State) (ws : nat) (s : Socket)
    (events : list Event) (Hs : sockets st !! ws = Some s) :
  framesOf (run (wsClose ws st) events) ws = received s ∧
  newReplies (framesOf (run (wsError ws st) events) ws) = newReplies (received s).
Proof.
  split.
  - assert (∀ st1, (∃ s1, sockets st1 !! ws = Some s1 ∧ isOpen (readyState s1) = false ∧
                          received s1 = received s) →
                   framesOf (run st1 events) ws = received s) as Hrun.
    { induction events as [|e events IH]; intros st1 (s1 & Hs1 & Hclosed & Hrecv).
      - cbn. unfold framesOf. now rewrite Hs1.
      - cbn [run foldl]. apply IH.
        destruct (socket_step st1 e ws s1 Hs1) as (s' & Hs' & Hready & Hreceived & _).
        exists s'. split; [done|]. split.
        + destruct Hready as [->|[->| ->]]; done.
        + destruct Hreceived as [->|[(Hopen & _)|(Hopen & _)]]; [done|congruence|congruence]. }
    apply Hrun. cbn. rewrite (alter_lookup_Some _ _ _ _ _ Hs), decide_True by done.
    eexists. split; [reflexivity|]. done.
  - assert (∀ st1, (∃ s1, sockets st1 !! ws = Some s1 ∧ (ws ∉ clients st1) ∧
                          newReplies (received s1) = newReplies (received s)) →
                   newReplies (framesOf (run st1 events) ws) = newReplies (received s))
      as Hrun.
    { induction events as [|e events IH]; intros st1 (s1 & Hs1 & Hout & Hrecv).
      - cbn. unfold framesOf. now rewrite Hs1.
      - cbn [run foldl]. apply IH.
        destruct (socket_step st1 e ws s1 Hs1) as (s' & Hs' & _ & Hreceived & _).
        exists s'. split; [done|]. split.
        + apply clients_step; [now apply lookup_lt_Some in Hs1|done].
        + destruct Hreceived as [->|[(_ & Hin & _)|(_ & rows & _ & _ & ->)]]; [done|done|].
          now rewrite newReplies_snoc_initial. }
    apply Hrun. exists s. split; [done|]. split; [|done].
    cbn. unfold setDelete. now intros [? _]%list_elem_of_filter.
Qed.

(** A subscriber that closes before a reply is broadcast. *)
Lemma closed_subscriber_is_left_alone_witness :
  framesOf
    (run (wsClose 0 (wsConnection (init None)))
       [PostReplies Sample.hello 5 true; InsertResumed 0;
        WsHistoryAnswered 0 true; WsHistorySettled 0]) 0 = [].
Proof.
  exact (proj1 (closed_subscriber_is_left_alone (wsConnection (init None)) 0
                  {| readyState := OPEN; received := []; history := QIssued |}
                  [PostReplies Sample.hello 5 true; InsertResumed 0;
                   WsHistoryAnswered 0 true; WsHistorySettled 0] eq_refl)).
Defined.

Lemma insertByTimestamp_perm r sorted : insertByTimestamp r sorted ≡ₚ r :: sorted.
Proof.
  induction sorted as [|x sorted IH]; cbn [insertByTimestamp]; [done|].
  destruct (timestamp r <? timestamp x); [done|].
  rewrite IH. apply Permutation_swap.
Qed.

Lemma orderByTimestamp_perm table : orderByTimestamp table ≡ₚ table.
Proof.
  unfold orderByTimestamp.
  assert (∀ acc, foldl (fun sorted r => insertByTimestamp r sorted) acc table ≡ₚ table ++ acc)
    as Hfold.
  { induction table as [|r table IH]; intros acc; cbn [foldl app]; [done|].
    rewrite IH, insertByTimestamp_perm. now rewrite Permutation_middle. }
  rewrite Hfold. now rewrite app_nil_r.
Qed.

Lemma snapshot_grows before current current' rows :
  current `prefix_of` current' → snapshot before current rows → snapshot before current' rows.
Proof.
  intros Hgrow (table & Hb & Ht & Hrows). exists table.
  split; [done|]. split; [now transitivity current|done].
Qed.

Lemma settled_step st (ws : nat) s :
  sockets st !! ws = Some s → history s ≠ QIssued →
  ∃ s', sockets (step st (WsHistorySettled ws)) !! ws = Some s' ∧ history s' = QSettled.
Proof.
  intros Hs Hnot. cbn [step]. unfold historySettled. rewrite Hs.
  destruct (history s) as [|[|rows]|] eqn:Hhist; [done| | |now exists s].
  - cbn. rewrite (alter_lookup_Some _ _ _ _ _ Hs), decide_True by done.
    eexists. split; [reflexivity|done].
  - cbn. unfold deliver.
    pose proof (alter_lookup_Some (accept (InitialReplies rows)) ws ws _ _ Hs) as Hinner.
    rewrite (alter_lookup_Some _ _ _ _ _ Hinner), decide_True by done.
    eexists. split; [reflexivity|done].
Qed.

Lemma history_inv_step before ws st e :
  history_inv before ws st → history_inv before ws (step st e).
Proof.
  intros (Hbefore & s & Hs & Hinv).
  pose proof (step_prefix st e) as Hgrow.
  split; [now transitivity (messageReplies st)|].
  destruct (socket_step st e ws s Hs) as (s' & Hs' & _ & Hreceived & Hhistory).
  exists s'. split; [done|].
  assert (initialReplies (received s') = initialReplies (received s) ∨
          ∃ rows, e = WsHistorySettled ws ∧ history s = QAnswered (Resolves rows) ∧
                  initialReplies (received s')
                  = initialReplies (received s) ++ [rows]) as Hframes.
  { destruct Hreceived as [->|[(_ & _ & k & row & n & _ & _ & ->)|(_ & rows & He & Hh & ->)]].
    - now left.
    - left. apply newReplies_replicate_initial.
    - right. exists rows. split; [done|]. split; [done|]. apply initialReplies_snoc. }
  destruct Hhistory as [Hsame|[(Hissued & ok & He & Hanswered)|((answer & Hans) & He & Hdone)]].
  - assert (initialReplies (received s') = initialReplies (received s)) as Heq.
    { destruct Hframes as [?|(rows & He & Hh & _)]; [done|]. exfalso.
      destruct (settled_step st ws s Hs) as (s'' & Hs'' & Hsettled); [congruence|].
      rewrite He in Hs'. rewrite Hs' in Hs''. injection Hs'' as <-. congruence. }
    rewrite Hsame, Heq. destruct (history s) as [|[|rows]|]; [done|done| |].
    + destruct Hinv as [? Hsnap]. split; [done|]. now apply (snapshot_grows _ _ _ _ Hgrow).
    + destruct Hinv as [?|(rows & ? & Hsnap)]; [now left|right].
      exists rows. split; [done|]. now apply (snapshot_grows _ _ _ _ Hgrow).
  - rewrite Hissued in Hinv. rewrite Hanswered.
    assert (initialReplies (received s') = []) as Heq.
    { destruct Hframes as [->|(rows & _ & Hh & _)]; [done|congruence]. }
    destruct ok; [|done]. split; [done|].
    exists (messageReplies st). split; [done|]. split; [done|]. apply orderByTimestamp_perm.
  - rewrite Hdone. rewrite Hans in Hinv.
    destruct Hframes as [->|(rows & _ & Hh & ->)].
    + left. destruct answer; [done|now destruct Hinv].
    + right. exists rows. rewrite Hh in Hans. injection Hans as <-.
      destruct Hinv as [-> Hsnap]. split; [done|]. now apply (snapshot_grows _ _ _ _ Hgrow).
Qed.

(** X18: a new subscriber is sent at most one [initialReplies] frame, and
    the frame carries a snapshot of the store that was taken after the
    connection: every reply stored before the connection is in it, and
    every row in it is a row of the store. *)
Theorem initialReplies_is_a_snapshot (st0 : State) (events : list Event) :
  initialReplies (framesOf (run (wsConnection st0) events) (length (sockets st0))) = [] ∨
  ∃ rows,
    initialReplies (framesOf (run (wsConnection st0) events) (length (sockets st0))) = [rows] ∧
    snapshot (messageReplies st0) (messageReplies (run (wsConnection st0) events)) rows ∧
    messageReplies st0 ⊆+ rows ∧ rows ⊆+ messageReplies (run (wsConnection st0) events).
Proof.
  assert (∀ st1, history_inv (messageReplies st0) (length (sockets st0)) st1 →
                 history_inv (messageReplies st0) (length (sockets st0)) (run st1 events))
    as Hrun.
  { induction events as [|e events IH]; intros st1 Hinv; [done|].
    cbn [run foldl]. now apply IH, history_inv_step. }
  destruct (Hrun (wsConnection st0)) as (_ & s & Hs & Hinv).
  { split; [done|]. eexists. split; [apply list_lookup_middle; reflexivity|]. done. }
  unfold framesOf. rewrite Hs.
  assert (∀ rows, snapshot (messageReplies st0)
                    (messageReplies (run (wsConnection st0) events)) rows →
                  messageReplies st0 ⊆+ rows ∧
                  rows ⊆+ messageReplies (run (wsConnection st0) events)) as Hsub.
  { intros rows (table & [k1 ->] & [k2 Ht] & Hperm). rewrite Hperm, Ht.
    split; apply submseteq_inserts_r; done. }
  destruct (history s) as [|[|rows]|]; [now left|now left|now left; destruct Hinv|].
  destruct Hinv as [?|(rows & ? & Hsnap)]; [now left|right].
  exists rows. split; [done|]. split; [done|]. now apply Hsub.
Qed.

End SubscriberFacts.
